(** * osbs-metrics: the dependency graph of builds and the build time series

    A shallow embedding of the two algorithmic engines of the repository:
    - [metrics.py]: [ThroughputModel] (sliding window of completions) and
      [ConcurrentModel] (sweep over start/finish intervals);
    - [graph.py]: [BuildTree] (attribution of produced image references to
      base images, most recent build first) and its tag trimming.

    Python integers are unbounded, hence [Z]; a [dict] is a [gmap], a [set] a
    [gset]; an exception is a value of [exn] carried by [result]. *)

From Stdlib Require Import ZArith Ascii OrderedTypeEx.
From stdpp Require Import gmap strings sorting.

Local Open Scope Z_scope.
#[local] Set Warnings "-clear-no-such-hyp".

(** ** Exceptions *)

(** The exceptions the modelled code can raise. *)
Inductive exn : Type :=
| KeyError    (* a missing key of a dict *)
| ValueError  (* json.loads on a malformed text; unpacking of a short list *)
| IndexError. (* an index into an empty list *)

(** The outcome of a call: a returned value or a raised exception. *)
Inductive result (A : Type) : Type :=
| Ok (a : A)
| Raise (e : exn).
Arguments Ok {A} a.
Arguments Raise {A} e.

#[global] Instance result_ret : MRet result := @Ok.

#[global] Instance result_bind : MBind result := fun A B k r =>
  match r with
  | Ok a => k a
  | Raise e => Raise e
  end.

Module metrics.

(** ** metrics.py: ThroughputModel *)

Record ThroughputModel : Type := mkThroughputModel {
  builds : list Z;          (* self.builds *)
  start_time : option Z;    (* self.start_time, None until the first append *)
  window : Z                (* self.window *)
}.

(** [ThroughputModel.__init__]. *)
Definition ThroughputModel_init (window : Z) : ThroughputModel :=
  {| builds := []; start_time := None; window := window |}.

(** The loop [while self.builds[-1] - self.builds[0] >= self.window:
    del self.builds[0]].  Each turn reads the last and the first element of
    the current list; on the empty list [self.builds[-1]] raises IndexError.
    The list left behind is returned with the outcome. *)
Fixpoint evict (window : Z) (builds : list Z) : list Z * result unit :=
  match builds with
  | [] => ([], Raise IndexError)
  | oldest :: rest =>
      if List.last builds oldest - oldest >=? window
      then evict window rest
      else (builds, Ok tt)
  end.

(** [ThroughputModel.append]: the object after the call and what the call
    returns or raises. *)
Definition append (self : ThroughputModel) (timestamp : Z)
  : ThroughputModel * result nat :=
  let start_time' :=
    match builds self with
    | [] => Some timestamp
    | _ => start_time self
    end in
  let '(builds', outcome) := evict (window self) (builds self ++ [timestamp]) in
  ({| builds := builds'; start_time := start_time'; window := window self |},
   _ ← outcome; Ok (length builds')).

(** ** metrics.py: ConcurrentModel *)

Record ConcurrentModel : Type := mkConcurrentModel {
  start_finish : list (Z * Z);   (* self.start_finish *)
  finish_times : list Z          (* self.finish_times *)
}.

(** [ConcurrentModel.__init__]. *)
Definition ConcurrentModel_init : ConcurrentModel :=
  {| start_finish := []; finish_times := [] |}.

(** [ConcurrentModel.append]; the name [append] is taken by the throughput
    model above. *)
Definition ConcurrentModel_append (self : ConcurrentModel) (start finish : Z)
  : ConcurrentModel :=
  {| start_finish := start_finish self ++ [(start, finish)];
     finish_times := finish_times self |}.

(** [list.sort()] on integers: the ascending rearrangement, here by
    insertion. *)
Fixpoint insert_sorted (x : Z) (l : list Z) : list Z :=
  match l with
  | [] => [x]
  | y :: l' => if x <=? y then x :: l else y :: insert_sorted x l'
  end.

Definition sort (l : list Z) : list Z := foldr insert_sorted [] l.

(** The inner loop of [get_nbuilds]:
    [while self.finish_times: if start < self.finish_times[0]: break;
     yield (self.finish_times[0], len(self.finish_times) - 1);
     del self.finish_times[0]].
    Returns the events yielded and the list left. *)
Fixpoint retire (start : Z) (finish_times : list Z)
  : list (Z * nat) * list Z :=
  match finish_times with
  | [] => ([], [])
  | first :: rest =>
      if start <? first
      then ([], finish_times)
      else
        let '(events, pending) := retire start rest in
        ((first, (length finish_times - 1)%nat) :: events, pending)
  end.

(** The outer loop of [get_nbuilds] over [self.start_finish], threading
    [self.finish_times]; the events are listed in the order they are yielded. *)
Fixpoint get_nbuilds_loop (start_finish : list (Z * Z)) (finish_times : list Z)
  : list (Z * nat) * list Z :=
  match start_finish with
  | [] => ([], finish_times)
  | (start, finish) :: more =>
      let '(retired, pending) := retire start finish_times in
      let pending' := sort (pending ++ [finish]) in
      let '(events, final) := get_nbuilds_loop more pending' in
      (retired ++ (start, length pending') :: events, final)
  end.

(** [ConcurrentModel.get_nbuilds], consumed to its end: the events and the
    object afterwards. *)
Definition get_nbuilds (self : ConcurrentModel)
  : list (Z * nat) * ConcurrentModel :=
  let '(events, final) :=
    get_nbuilds_loop (start_finish self) (finish_times self) in
  (events, {| start_finish := start_finish self; finish_times := final |}).

(** The model after appending the intervals in order. *)
Definition appended (intervals : list (Z * Z)) : ConcurrentModel :=
  foldl (fun self i => ConcurrentModel_append self i.1 i.2)
        ConcurrentModel_init intervals.

End metrics.

Module graph.

(** ** graph.py: the build records *)

(** A build record is decoded JSON; the model keeps the keys [BuildTree]
    reads, each of them optional as in a [dict]. *)
Record Annotations : Type := mkAnnotations {
  base_image_name : option string;   (* annotations['base-image-name'] *)
  repositories : option string       (* annotations['repositories'], JSON text *)
}.

Record Metadata : Type := mkMetadata {
  annotations : option Annotations   (* metadata['annotations'] *)
}.

Record Status : Type := mkStatus {
  startTimestamp : option string     (* status['startTimestamp'] *)
}.

Record Build : Type := mkBuild {
  metadata : option Metadata;        (* build['metadata'] *)
  status : option Status             (* build['status'] *)
}.

#[global] Instance Annotations_eq_dec : EqDecision Annotations.
Proof. solve_decision. Defined.
#[global] Instance Metadata_eq_dec : EqDecision Metadata.
Proof. solve_decision. Defined.
#[global] Instance Status_eq_dec : EqDecision Status.
Proof. solve_decision. Defined.
#[global] Instance Build_eq_dec : EqDecision Build.
Proof. solve_decision. Defined.

(** What [json.loads] returns on a repositories annotation, as far as [add]
    reads it: an object and the list under its key ['primary'], if any. *)
Record Repositories : Type := mkRepositories {
  primary : option (list string)
}.

(** The state of a [BuildTree] object. *)
Record BuildTree : Type := mkBuildTree {
  deps : gmap string (gset string);  (* self.deps, a defaultdict(set) *)
  seen : gset string;                (* self.seen *)
  when : gmap string string          (* self.when *)
}.

(** [d[key]] on a plain dict. *)
Definition getitem {A : Type} (entry : option A) : result A :=
  match entry with
  | Some a => Ok a
  | None => Raise KeyError
  end.

(** [d[key]] on a [defaultdict(set)], as a value: a missing key reads as the
    empty set (and the entry is created; every use below writes it back). *)
Definition getitem_default (d : gmap string (gset string)) (key : string)
  : gset string :=
  default ∅ (d !! key).

(** Truth value of [d.get(key)]: the key is bound to a non-empty set. *)
Definition truthy (entry : option (gset string)) : bool :=
  match entry with
  | Some s => bool_decide (s ≠ ∅)
  | None => false
  end.

Section BuildTree.

(** The two library functions [graph.py] imports: [osbs.utils]'
    [strip_registry_from_image], and [json.loads] restricted to the texts of
    repositories annotations ([None] when it raises [ValueError]). *)
Variable strip_registry_from_image : string -> string.
Variable json_loads : string -> option Repositories.

(** The body of the [try] block of [add], in evaluation order. *)
Definition read_build (build : Build) : result (string * Repositories * string) :=
  metadata ← getitem (metadata build);
  annotations ← getitem (annotations metadata);
  base_image_name ← getitem (base_image_name annotations);
  text ← getitem (repositories annotations);
  repositories ← match json_loads text with
                 | Some v => Ok v
                 | None => Raise ValueError
                 end;
  status ← getitem (status build);
  when ← getitem (startTimestamp status);
  Ok (base_image_name, repositories, when).

(** [for repo in repos: self.when[repo] = when]. *)
Definition record_when (when : string) (repos : list string)
    (table : gmap string string) : gmap string string :=
  foldl (fun table repo => <[repo := when]> table) table repos.

(** Lines 29 to 36 of [add], once [repositories['primary']] is read. *)
Definition attribute (self : BuildTree) (base_image_name : string)
    (primary : list string) (when_ : string) : BuildTree :=
  let repos : gset string :=
    list_to_set (strip_registry_from_image <$> primary) in
  let duplicates := seen self ∩ repos in
  let repos := repos ∖ duplicates in
  let seen' := seen self ∪ repos in
  let base := strip_registry_from_image base_image_name in
  let deps' := <[base := getitem_default (deps self) base ∪ repos]> (deps self) in
  {| deps := deps';
     seen := seen';
     when := record_when when_ (elements repos) (when self) |}.

(** [BuildTree.add]. *)
Definition add (self : BuildTree) (build : Build) : result BuildTree :=
  match read_build build with
  | Raise KeyError => Ok self                       (* except KeyError: return *)
  | Raise e => Raise e
  | Ok (base_image_name, repositories, when_) =>
      primary ← getitem (primary repositories);
      Ok (attribute self base_image_name primary when_)
  end.

(** ['status' in build and 'startTimestamp' in build['status']]. *)
Definition has_start (build : Build) : bool :=
  match status build with
  | Some st => bool_decide (is_Some (startTimestamp st))
  | None => false
  end.

(** The sort key [x['status']['startTimestamp']]; it is read on records
    that passed [has_start] only. *)
Definition start_key (build : Build) : string :=
  default String.EmptyString (status build ≫= startTimestamp).

(** [builds.sort(key=..., reverse=True)]: descending by key, records of equal
    key in their original order (Python's sort is stable, also reversed);
    strings compare lexicographically.  Insertion from the right end. *)
Fixpoint insert_reverse (b : Build) (l : list Build) : list Build :=
  match l with
  | [] => [b]
  | x :: l' =>
      if String.ltb (start_key b) (start_key x)
      then x :: insert_reverse b l'
      else b :: l
  end.

Definition sort_reverse (l : list Build) : list Build :=
  foldr insert_reverse [] l.

(** [precedes x y]: a descending sort may put [x] before [y]. *)
Definition precedes (x y : Build) : Prop :=
  String.ltb (start_key x) (start_key y) = false.

(** [for build in builds: self.add(build)]. *)
Fixpoint add_all (self : BuildTree) (builds : list Build) : result BuildTree :=
  match builds with
  | [] => Ok self
  | build :: builds' => self' ← add self build; add_all self' builds'
  end.

Definition BuildTree_empty : BuildTree :=
  {| deps := ∅; seen := ∅; when := ∅ |}.

(** [BuildTree.__init__]. *)
Definition BuildTree_init (builds : list Build) : result BuildTree :=
  let builds := filter (fun build => has_start build = true) builds in
  let builds := sort_reverse builds in
  add_all BuildTree_empty builds.

(** The BuildRecordView of the specification: the base image, the produced
    references and the start instant of a record that has them all, with a
    repositories annotation that parses. *)
Definition view (build : Build) : option (string * list string * string) :=
  metadata ← metadata build;
  annotations ← annotations metadata;
  base_image_name ← base_image_name annotations;
  text ← repositories annotations;
  repositories ← json_loads text;
  status ← status build;
  when_ ← startTimestamp status;
  primary ← primary repositories;
  Some (base_image_name, primary, when_).

(** "The record claims to have produced the reference": it is among its
    normalised produced references. *)
Definition claims (build : Build) (reference : string) : Prop :=
  exists base_image_name primary when_,
    view build = Some (base_image_name, primary, when_) /\
    reference ∈ strip_registry_from_image <$> primary.

(** The state reached after the records [processed]: every reference of a
    derived set is seen; every seen reference was produced by a processed
    record, sits under the base of that record and carries its start
    instant; only seen references carry an instant; and every processed
    record with a view has its base as a key and its references seen. *)
Definition attributed_from (self : BuildTree) (processed : list Build) : Prop :=
  (forall base R, R ∈ getitem_default (deps self) base -> R ∈ seen self) /\
  (forall R, R ∈ seen self ->
     exists build base primary when_,
       build ∈ processed /\
       view build = Some (base, primary, when_) /\
       R ∈ strip_registry_from_image <$> primary /\
       R ∈ getitem_default (deps self) (strip_registry_from_image base) /\
       when self !! R = Some when_) /\
  (forall R, is_Some (when self !! R) -> R ∈ seen self) /\
  (forall build base primary when_,
     build ∈ processed ->
     view build = Some (base, primary, when_) ->
     is_Some (deps self !! strip_registry_from_image base) /\
     forall R, R ∈ strip_registry_from_image <$> primary -> R ∈ seen self).

End BuildTree.

(** ** graph.py: trimming *)

(** [layer.split(':', 1)] unpacked into two names: the text before and
    after the first colon, [None] when there is no colon (the unpacking
    raises [ValueError]). *)
Fixpoint split_colon (layer : string) : option (string * string) :=
  match layer with
  | String.EmptyString => None
  | String.String c rest =>
      if Ascii.eqb c ":"%char
      then Some (String.EmptyString, rest)
      else '(name, version) ← split_colon rest; Some (String.String c name, version)
  end.

(** The body of [for layer in layers] in [_trim_layers]. *)
Definition trim_layer (deps : gmap string (gset string)) (excess : gset string)
    (layer : string) : result (gset string) :=
  match split_colon layer with
  | None => Raise ValueError
  | Some (name, version) =>
      if decide (version = "latest"%string) then Ok excess
      else if negb (truthy (deps !! layer)) then Ok (excess ∪ {[layer]})
      else Ok excess
  end.

Fixpoint trim_layers_loop (deps : gmap string (gset string))
    (layers : list string) (excess : gset string) : result (gset string) :=
  match layers with
  | [] => Ok excess
  | layer :: layers' =>
      excess' ← trim_layer deps excess layer;
      trim_layers_loop deps layers' excess'
  end.

(** [BuildTree._trim_layers]: the graph afterwards and the returned set. *)
Definition _trim_layers (deps : gmap string (gset string)) (base : string)
  : result (gmap string (gset string) * gset string) :=
  let layers := getitem_default deps base in
  excess ← trim_layers_loop deps (elements layers) ∅;
  Ok (<[base := layers ∖ excess]> deps, excess).

(** One turn of [while True]: the loop over [images], with the flag. *)
Fixpoint trim_pass (images : list string) (deps : gmap string (gset string))
    (any_trimmed : bool) : result (gmap string (gset string) * bool) :=
  match images with
  | [] => Ok (deps, any_trimmed)
  | base :: images' =>
      if truthy (deps !! base)
      then
        '(deps', excess) ← _trim_layers deps base;
        trim_pass images' deps' (if truthy (Some excess) then true else any_trimmed)
      else trim_pass images' deps any_trimmed
  end.

(** [self.deps.keys()], in the order the map lists them. *)
Definition keys (deps : gmap string (gset string)) : list string :=
  (map_to_list deps).*1.

(** [BuildTree.trim_excess_tags] on [self.deps].  The [while True] loop is
    unrolled at most [fuel] times: [None] when the fuel runs out before the
    loop breaks or raises. *)
Fixpoint trim_excess_tags (fuel : nat) (deps : gmap string (gset string))
  : option (result (gmap string (gset string))) :=
  match fuel with
  | O => None
  | S fuel' =>
      match trim_pass (keys deps) deps false with
      | Raise e => Some (Raise e)
      | Ok (deps', any_trimmed) =>
          if any_trimmed then trim_excess_tags fuel' deps' else Some (Ok deps')
      end
  end.

(** The number of edges of the graph: the sum of the sizes of the derived
    sets. *)
Definition edge_count (deps : gmap string (gset string)) : nat :=
  map_fold (fun _ layers n => (size layers + n)%nat) 0%nat deps.

(** ** The vocabulary of the specification *)

(** The tag component of a reference: the text after its first colon. *)
Definition tag_of (layer : string) : option string :=
  snd <$> split_colon layer.

(** "Tagged latest". *)
Definition tagged_latest (layer : string) : Prop :=
  tag_of layer = Some "latest"%string.

(** "It has no outgoing derived set in the graph, or that derived set is
    empty (it is a leaf)". *)
Definition is_leaf (deps : gmap string (gset string)) (layer : string) : Prop :=
  deps !! layer = None \/ deps !! layer = Some ∅.

(** "A tag is removable if (a) it is not tagged latest, and (b) it is a
    leaf". *)
Definition removable (deps : gmap string (gset string)) (layer : string) : Prop :=
  ~ tagged_latest layer /\ is_leaf deps layer.

#[global] Instance tagged_latest_dec layer : Decision (tagged_latest layer).
Proof. unfold tagged_latest. apply _. Defined.

#[global] Instance is_leaf_dec deps layer : Decision (is_leaf deps layer).
Proof. unfold is_leaf. apply _. Defined.

#[global] Instance removable_dec deps layer : Decision (removable deps layer).
Proof. unfold removable. apply _. Defined.

(** A reference "of the form name:tag": it contains a colon. *)
Definition has_colon (layer : string) : Prop :=
  ":"%char ∈ String.list_ascii_of_string layer.

(** "No reference appears in the derived set of more than one base". *)
Definition derived_disjoint (deps : gmap string (gset string)) : Prop :=
  forall base1 base2 layer,
    layer ∈ getitem_default deps base1 ->
    layer ∈ getitem_default deps base2 ->
    base1 = base2.

(** A tag the fixed point prunes: it is not tagged latest and every tag
    built from it is pruned too. *)
Inductive prunable (deps : gmap string (gset string)) : string -> Prop :=
| prunable_intro (layer : string) :
    ~ tagged_latest layer ->
    (forall derived, derived ∈ getitem_default deps layer ->
       prunable deps derived) ->
    prunable deps layer.

(** ** graph.py: rendering *)

(** The inner function [formatwhen] of [as_graph_easy_txt]: a backslash, an
    [n] and the first ten characters of the recorded instant; the empty
    text without datestamps or when [self.when[name]] raises KeyError. *)
Definition formatwhen (self : BuildTree) (include_datestamp : bool)
    (name : string) : string :=
  if include_datestamp
  then match when self !! name with
       | Some instant => String.append "\n" (String.substring 0 10 instant)
       | None => String.EmptyString
       end
  else String.EmptyString.

(** The four [txt += ...] of one edge. *)
Definition edge_txt (self : BuildTree) (include_datestamp : bool)
    (txt base layer : string) : string :=
  let txt := String.append txt
    (String.append "[ " (String.append base
      (String.append (formatwhen self include_datestamp base) " ]"))) in
  let txt := String.append txt " --> " in
  let txt := String.append txt
    (String.append "[ " (String.append layer
      (String.append (formatwhen self include_datestamp layer) " ]"))) in
  String.append txt (String.String (ascii_of_nat 10) String.EmptyString).

(** [BuildTree.as_graph_easy_txt]: the two nested loops over
    [self.deps.items()] and over each derived set. *)
Definition as_graph_easy_txt (self : BuildTree) (include_datestamp : bool)
  : string :=
  foldl (fun txt '(base, layers) =>
           foldl (fun txt layer => edge_txt self include_datestamp txt base layer)
                 txt (elements layers))
        String.EmptyString (map_to_list (deps self)).

End graph.

(** * Sample inputs *)

Module examples.

Import graph.

(** The graph of the specification's first example,
    [{A:1 -> {B:1}, B:1 -> {C:latest}}]. *)
Definition chain_deps : gmap string (gset string) :=
  {[ "A:1"%string := {[ "B:1"%string ]};
     "B:1"%string := {[ "C:latest"%string ]} ]}.

(** The graph of its second example, [{A:1 -> {B:2}}]. *)
Definition leaf_deps : gmap string (gset string) :=
  {[ "A:1"%string := {[ "B:2"%string ]} ]}.

(** A chain of version tags, [{A:1 -> {B:1}, B:1 -> {C:1}}]. *)
Definition cascade_deps : gmap string (gset string) :=
  {[ "A:1"%string := {[ "B:1"%string ]};
     "B:1"%string := {[ "C:1"%string ]} ]}.

(** A derived reference without a tag, [{A:1 -> {B}}]. *)
Definition untagged_deps : gmap string (gset string) :=
  {[ "A:1"%string := {[ "B"%string ]} ]}.

(** JSON texts carry double quotes. *)
Definition quoted (s : string) : string :=
  String.String (ascii_of_nat 34)
    (String.append s (String.String (ascii_of_nat 34) String.EmptyString)).

(** The text [{"primary": ["B:1"]}]. *)
Definition text_B1 : string :=
  String.append "{" (String.append (quoted "primary")
    (String.append ": [" (String.append (quoted "B:1") "]}"))).

(** The text [{"primary": ["C:latest"]}]. *)
Definition text_Clatest : string :=
  String.append "{" (String.append (quoted "primary")
    (String.append ": [" (String.append (quoted "C:latest") "]}"))).

(** [json.loads] on the texts the sample records carry; the text
    ["not json"] and every text outside the table count as malformed. *)
Definition json_loads (text : string) : option Repositories :=
  if decide (text = text_B1) then Some {| primary := Some ["B:1"%string] |}
  else if decide (text = text_Clatest)
  then Some {| primary := Some ["C:latest"%string] |}
  else if decide (text = "{}"%string) then Some {| primary := None |}
  else None.

(** [strip_registry_from_image] on references without a registry, which
    it returns as they are. *)
Definition strip_registry_from_image (image : string) : string := image.

Definition record (base text start : string) : Build :=
  {| metadata := Some {| annotations := Some
       {| base_image_name := Some base; repositories := Some text |} |};
     status := Some {| startTimestamp := Some start |} |}.

(** The records of the specification's first example: base A:1 producing
    B:1 and, more recent, base B:1 producing C:latest. *)
Definition build_A : Build := record "A:1" text_B1 "2016-03-01T10:00:00Z".
Definition build_B : Build := record "B:1" text_Clatest "2016-03-02T10:00:00Z".

(** A later rebuild of B:1, from another base. *)
Definition build_A2 : Build := record "A:2" text_B1 "2016-03-05T10:00:00Z".

(** The tree built from [build_A] and [build_B]. *)
Definition chain_tree : BuildTree :=
  {| deps := chain_deps;
     seen := {[ "B:1"%string; "C:latest"%string ]};
     when := {[ "B:1"%string := "2016-03-01T10:00:00Z"%string;
                "C:latest"%string := "2016-03-02T10:00:00Z"%string ]} |}.

(** The tree built from [build_A], [build_A2] and [build_B]: the rebuild
    owns B:1. *)
Definition rebuilt_tree : BuildTree :=
  {| deps := {[ "A:1"%string := ∅;
                "A:2"%string := {[ "B:1"%string ]};
                "B:1"%string := {[ "C:latest"%string ]} ]};
     seen := {[ "B:1"%string; "C:latest"%string ]};
     when := {[ "B:1"%string := "2016-03-05T10:00:00Z"%string;
                "C:latest"%string := "2016-03-02T10:00:00Z"%string ]} |}.

(** A record whose repositories annotation is not JSON. *)
Definition build_unparseable : Build :=
  record "A:1" "not json" "2016-03-03T10:00:00Z".

End examples.

(** * Properties of metrics.py *)

Section ThroughputModel_facts.

Import metrics.

(** With a window of at most zero, the eviction loop empties a list whose
    last instant is the largest, and then fails reading the empty list. *)
Lemma evict_nonpositive (window : Z) (timestamp : Z) (builds : list Z) :
  window <= 0 ->
  Forall (fun b => b <= timestamp) builds ->
  evict window (builds ++ [timestamp]) = ([], Raise IndexError).
Proof.
  intros Hw Hle. induction Hle as [|b builds Hb Hle IH].
  - simpl. replace (timestamp - timestamp >=? window) with true; [done|].
    symmetry. apply Z.geb_le. lia.
  - change (evict window ((b :: builds) ++ [timestamp])) with
      (if List.last ((b :: builds) ++ [timestamp]) b - b >=? window
       then evict window (builds ++ [timestamp])
       else ((b :: builds) ++ [timestamp], Ok tt)).
    rewrite List.last_last.
    replace (timestamp - b >=? window) with true; [exact IH|].
    symmetry. apply Z.geb_le. lia.
Qed.

(** With a positive window the loop stops at the latest on the one-element
    list, so it never fails. *)
Lemma evict_positive (window : Z) (builds : list Z) :
  0 < window -> builds <> [] ->
  exists left, evict window builds = (left, Ok tt) /\ left <> [].
Proof.
  intros Hw. induction builds as [|b builds IH]; [done|]. intros _.
  simpl. destruct (_ >=? _) eqn:Hge.
  - destruct builds as [|b' builds]; [|apply IH; done].
    simpl in Hge. apply Z.geb_le in Hge. lia.
  - eexists. split; [done|]. done.
Qed.

(** C7, as the code has it: with a non-positive window and instants
    appended in non-decreasing order, every call of [append], the first one
    included, evicts every stored instant, the new one too, and raises
    IndexError on the emptied list; no call returns 1. *)
Theorem append_nonpositive_window_raises
    (self : ThroughputModel) (timestamp : Z) :
  window self <= 0 ->
  Forall (fun b => b <= timestamp) (builds self) ->
  (append self timestamp).2 = Raise IndexError /\
  builds (append self timestamp).1 = [].
Proof.
  intros Hw Hle. unfold append.
  by rewrite (evict_nonpositive _ _ _ Hw Hle).
Qed.

Lemma append_nonpositive_window_raises_witness :
  (append (ThroughputModel_init 0) 10).2 = Raise IndexError /\
  builds (append (ThroughputModel_init 0) 10).1 = [].
Proof.
  apply (append_nonpositive_window_raises (ThroughputModel_init 0) 10).
  - simpl. lia.
  - simpl. constructor.
Defined.

(** C7 fails as stated: with window 0 the first call already raises, and so
    does the second one, which was to return 1. *)
Lemma append_nonpositive_window_counterexample :
  append (ThroughputModel_init 0) 10 =
    ({| builds := []; start_time := Some 10; window := 0 |}, Raise IndexError) /\
  append (append (ThroughputModel_init 0) 10).1 20 =
    ({| builds := []; start_time := Some 20; window := 0 |}, Raise IndexError) /\
  (append (append (ThroughputModel_init 0) 10).1 20).2 <> Ok 1%nat.
Proof. split; [reflexivity|]. split; [reflexivity|]. discriminate. Qed.

End ThroughputModel_facts.

Section ConcurrentModel_facts.

Import metrics.

Lemma retire_fst_snd (start first : Z) (rest : list Z) :
  retire start (first :: rest) =
    if start <? first then ([], first :: rest)
    else ((first, length rest) :: (retire start rest).1, (retire start rest).2).
Proof.
  simpl. destruct (start <? first); [done|].
  destruct (retire start rest). simpl. by rewrite Nat.sub_0_r.
Qed.

(** On a sorted pending list the inner loop retires exactly the finish
    instants that are at most [start]. *)
Lemma retire_sorted (start : Z) (finish_times : list Z) :
  StronglySorted Z.le finish_times ->
  (retire start finish_times).2 =
    filter (fun f => start < f) finish_times /\
  (retire start finish_times).1.*1 =
    filter (fun f => f <= start) finish_times.
Proof.
  induction 1 as [|first rest Hsorted IH Hall]; [done|].
  rewrite retire_fst_snd. destruct (start <? first) eqn:Hlt.
  - apply Z.ltb_lt in Hlt. simpl.
    assert (Hkeep : forall l, Forall (Z.le first) l ->
              filter (fun f => start < f) l = l /\
              filter (fun f => f <= start) l = []).
    { induction 1 as [|x l Hx Hl [IH1 IH2]]; [done|].
      rewrite !filter_cons. rewrite decide_True by lia.
      rewrite decide_False by lia. by rewrite IH1, IH2. }
    destruct (Hkeep rest Hall) as [H1 H2].
    rewrite !filter_cons. rewrite decide_True by lia.
    rewrite decide_False by lia. by rewrite H1, H2.
  - apply Z.ltb_ge in Hlt. destruct IH as [IH1 IH2]. cbn [fst snd].
    rewrite fmap_cons. cbn [fst]. rewrite !filter_cons. rewrite decide_False by lia.
    rewrite decide_True by lia. by rewrite IH1, IH2.
Qed.

(** C5, as the code has it: the inner loop stops only when [start] is
    strictly below the earliest pending finish, so a pending finish is
    emitted and removed while it is at most [start]; when an interval
    finishes exactly when the next one starts, that instant is emitted first
    as a finish event (count 0) and then as the start event (count 1). *)
Theorem retire_up_to_start (start : Z) (finish_times : list Z) (s1 f2 : Z) :
  StronglySorted Z.le finish_times ->
  (retire start finish_times).2 =
    filter (fun f => start < f) finish_times /\
  (retire start finish_times).1.*1 =
    filter (fun f => f <= start) finish_times /\
  (get_nbuilds (appended [(s1, start); (start, f2)])).1 =
    [(s1, 1%nat); (start, 0%nat); (start, 1%nat)].
Proof.
  intros Hsorted. destruct (retire_sorted start _ Hsorted) as [H1 H2].
  split; [done|]. split; [done|].
  unfold get_nbuilds, appended. simpl.
  by rewrite Z.ltb_irrefl.
Qed.

Lemma retire_up_to_start_witness :
  (retire 5 [3; 5; 7]).2 = filter (fun f => 5 < f) [3; 5; 7] /\
  (retire 5 [3; 5; 7]).1.*1 = filter (fun f => f <= 5) [3; 5; 7] /\
  (get_nbuilds (appended [(1, 5); (5, 8)])).1 =
    [(1, 1%nat); (5, 0%nat); (5, 1%nat)].
Proof.
  apply (retire_up_to_start 5 [3; 5; 7] 1 8).
  repeat (constructor; [|repeat constructor; lia]). constructor.
Defined.

(** C5 fails as stated: for the intervals (1,5) and (5,8), the instant 5 is
    emitted as the finish event (5,0) before the start event (5,1); treated
    as still concurrent, the two would give the single event (5,2). *)
Lemma get_nbuilds_tie_counterexample :
  (get_nbuilds (appended [(1, 5); (5, 8)])).1 =
    [(1, 1%nat); (5, 0%nat); (5, 1%nat)] /\
  (get_nbuilds (appended [(1, 5); (5, 8)])).1 <> [(1, 1%nat); (5, 2%nat)] /\
  retire 5 [5] = ([(5, 0%nat)], []).
Proof. split; [reflexivity|]. split; [discriminate|reflexivity]. Qed.

(** C6, as the code has it: the intervals (1,5),(2,3),(6,8) yield the five
    events (1,1),(2,2),(3,1),(5,0),(6,1); the finish instant 8 stays pending
    and is never emitted. *)
Theorem get_nbuilds_example :
  get_nbuilds (appended [(1, 5); (2, 3); (6, 8)]) =
    ([(1, 1%nat); (2, 2%nat); (3, 1%nat); (5, 0%nat); (6, 1%nat)],
     {| start_finish := [(1, 5); (2, 3); (6, 8)]; finish_times := [8] |}).
Proof. reflexivity. Qed.

(** C6 fails as stated: the event (8,0) is not produced. *)
Lemma get_nbuilds_example_counterexample :
  (get_nbuilds (appended [(1, 5); (2, 3); (6, 8)])).1 <>
    [(1, 1%nat); (2, 2%nat); (3, 1%nat); (5, 0%nat); (6, 1%nat); (8, 0%nat)].
Proof. discriminate. Qed.

End ConcurrentModel_facts.

(** * Properties of graph.py: trimming *)

Section trim_facts.

Import graph.

Implicit Types deps : gmap string (gset string).
Implicit Types layer base : string.

Lemma split_colon_None layer :
  split_colon layer = None <-> ~ has_colon layer.
Proof.
  unfold has_colon. induction layer as [|c rest IH]; simpl.
  - split; [intros _; apply not_elem_of_nil|done].
  - destruct (Ascii.eqb_spec c ":"%char) as [->|Hne].
    + split; [done|]. intros []. apply list_elem_of_here.
    + rewrite not_elem_of_cons, <- IH.
      destruct (split_colon rest) as [[name version]|]; simpl.
      * split; [done|]. by intros [_ ?].
      * split; [|done]. intros _. split; [congruence|done].
Qed.

Lemma split_colon_Some layer :
  is_Some (split_colon layer) <-> has_colon layer.
Proof.
  destruct (split_colon layer) eqn:Hsplit.
  - split; [|by eauto]. intros _.
    destruct (decide (has_colon layer)) as [|Hno]; [done|].
    apply split_colon_None in Hno. congruence.
  - split; [intros []; done|]. intros Hcolon.
    by apply split_colon_None in Hsplit.
Qed.

Lemma truthy_false (entry : option (gset string)) :
  truthy entry = false <-> entry = None \/ entry = Some ∅.
Proof.
  destruct entry as [s|]; simpl.
  - rewrite bool_decide_eq_false. split.
    + intros Hs. right. f_equal. by apply dec_stable.
    + intros [|[= ->]]; [done|]. by intros [].
  - split; [by left|done].
Qed.

Lemma truthy_getitem_default deps layer :
  truthy (deps !! layer) = false <-> getitem_default deps layer = ∅.
Proof.
  rewrite truthy_false. unfold getitem_default.
  destruct (deps !! layer) as [s|]; simpl.
  - split; [by intros [|[= ->]]|]. intros ->. by right.
  - split; [done|]. by left.
Qed.

Lemma truthy_true deps base :
  truthy (deps !! base) = true ->
  deps !! base = Some (getitem_default deps base) /\
  getitem_default deps base <> ∅.
Proof.
  unfold getitem_default. destruct (deps !! base) as [s|]; simpl; [|done].
  intros Hs. by apply bool_decide_eq_true in Hs.
Qed.

(** The three branches of the loop body, in the words of the specification. *)
Lemma trim_layer_spec deps excess layer :
  trim_layer deps excess layer =
    if decide (has_colon layer)
    then Ok (if decide (removable deps layer) then excess ∪ {[layer]} else excess)
    else Raise ValueError.
Proof.
  unfold trim_layer. destruct (split_colon layer) as [[name version]|] eqn:Hsplit.
  - rewrite (decide_True (P := has_colon layer))
      by (apply split_colon_Some; eauto).
    assert (Htag : tagged_latest layer <-> version = "latest"%string).
    { unfold tagged_latest, tag_of. rewrite Hsplit. simpl.
      split; [by intros [= ->]|by intros ->]. }
    destruct (decide (version = "latest"%string)) as [Hv|Hv].
    + rewrite decide_False; [done|]. intros [Hnot _]. by apply Hnot, Htag.
    + destruct (truthy (deps !! layer)) eqn:Htruthy; simpl.
      * rewrite decide_False; [done|]. intros [_ Hleaf].
        apply truthy_false in Hleaf. congruence.
      * rewrite decide_True; [done|]. split; [by rewrite Htag|].
        by apply truthy_false.
  - rewrite (decide_False (P := has_colon layer)); [done|].
    by apply split_colon_None.
Qed.

Lemma trim_layers_loop_Ok deps layers excess :
  Forall has_colon layers ->
  trim_layers_loop deps layers excess =
    Ok (excess ∪ list_to_set (filter (removable deps) layers)).
Proof.
  intros Hall. revert excess.
  induction Hall as [|layer layers Hcolon Hall IH]; intros excess; simpl.
  - f_equal. set_solver.
  - rewrite trim_layer_spec, decide_True by done. simpl.
    rewrite IH, filter_cons. f_equal.
    destruct (decide (removable deps layer)); set_solver.
Qed.

Lemma trim_layers_loop_Raise deps layers excess :
  ~ Forall has_colon layers ->
  trim_layers_loop deps layers excess = Raise ValueError.
Proof.
  revert excess. induction layers as [|layer layers IH]; intros excess Hnot.
  - destruct Hnot. constructor.
  - simpl. rewrite trim_layer_spec.
    destruct (decide (has_colon layer)) as [Hcolon|]; [|done]. simpl.
    apply IH. intros Hall. apply Hnot. by constructor.
Qed.

(** [_trim_layers] either raises ValueError, on a derived set with a
    reference without colon, or subtracts exactly the removable references. *)
Lemma _trim_layers_spec deps base :
  _trim_layers deps base =
    if decide (set_Forall has_colon (getitem_default deps base))
    then
      let excess := filter (removable deps) (getitem_default deps base) in
      Ok (<[base := getitem_default deps base ∖ excess]> deps, excess)
    else Raise ValueError.
Proof.
  unfold _trim_layers.
  destruct (decide (set_Forall has_colon _)) as [Hall|Hnot].
  - rewrite trim_layers_loop_Ok.
    + simpl. assert (∅ ∪ list_to_set (filter (removable deps)
        (elements (getitem_default deps base))) =
        filter (removable deps) (getitem_default deps base)) as ->; [|done].
      apply set_eq. intros layer.
      rewrite elem_of_union, elem_of_list_to_set, list_elem_of_filter,
        elem_of_filter, elem_of_elements. set_solver.
    + apply Forall_forall. intros layer Hin. apply Hall.
      by apply elem_of_elements.
  - rewrite trim_layers_loop_Raise; [done|]. intros Hall. apply Hnot.
    intros layer Hin. rewrite Forall_forall in Hall. apply Hall.
    by apply elem_of_elements.
Qed.

Lemma is_leaf_getitem_default deps layer :
  is_leaf deps layer <-> getitem_default deps layer = ∅.
Proof.
  rewrite <- truthy_getitem_default, truthy_false. done.
Qed.

Lemma edge_count_insert deps base (s : gset string) :
  (edge_count (<[base := s]> deps) + size (getitem_default deps base) =
   size s + edge_count deps)%nat.
Proof.
  unfold edge_count, getitem_default.
  destruct (deps !! base) as [s0|] eqn:Hbase; cbn [from_option id].
  - rewrite (map_fold_delete_L _ _ base s0 deps); [|intros; lia|done].
    rewrite <- (insert_delete_eq deps).
    rewrite map_fold_insert_L; [lia|intros; lia|apply lookup_delete_eq].
  - rewrite map_fold_insert_L; [|intros; lia|done].
    rewrite size_empty. lia.
Qed.

Lemma getitem_default_insert deps base b (s : gset string) :
  getitem_default (<[base := s]> deps) b =
    if decide (base = b) then s else getitem_default deps b.
Proof.
  unfold getitem_default. rewrite lookup_insert.
  by destruct (decide (base = b)).
Qed.

(** What one call of [_trim_layers] from [trim_pass] does. *)
Lemma _trim_layers_step deps base deps1 excess :
  truthy (deps !! base) = true ->
  _trim_layers deps base = Ok (deps1, excess) ->
  excess = filter (removable deps) (getitem_default deps base) /\
  deps1 = <[base := getitem_default deps base ∖ excess]> deps /\
  (edge_count deps1 + size excess = edge_count deps)%nat /\
  (truthy (Some excess) = false -> deps1 = deps) /\
  (truthy (Some excess) = true -> excess <> ∅).
Proof.
  intros Htruthy. rewrite _trim_layers_spec.
  destruct (decide _) as [Hall|]; [|done]. simpl. intros [= <- <-].
  destruct (truthy_true _ _ Htruthy) as [Hbase Hne].
  set (layers := getitem_default deps base) in *.
  set (excess := filter (removable deps) layers).
  assert (Hsub : excess ⊆ layers).
  { intros layer Hin. by apply elem_of_filter in Hin as [_ ?]. }
  split; [done|]. split; [done|]. split; [|split].
  - pose proof (edge_count_insert deps base (layers ∖ excess)) as Hcount.
    fold layers in Hcount. rewrite size_difference in Hcount by done.
    pose proof (subseteq_size _ _ Hsub). lia.
  - simpl. rewrite bool_decide_eq_false. intros Hempty.
    apply dec_stable in Hempty. rewrite Hempty, difference_empty_L.
    by apply insert_id.
  - simpl. by rewrite bool_decide_eq_true.
Qed.

(** The invariants of one pass over [images]. *)
Lemma trim_pass_inv images deps flag deps' flag' :
  trim_pass images deps flag = Ok (deps', flag') ->
  (forall b, getitem_default deps' b ⊆ getitem_default deps b) /\
  (forall b layer, layer ∈ getitem_default deps b ->
     layer ∉ getitem_default deps' b ->
     ~ tagged_latest layer /\ getitem_default deps' layer = ∅) /\
  (edge_count deps' <= edge_count deps)%nat /\
  (flag' = false ->
     flag = false /\ deps' = deps /\
     forall b layer, b ∈ images -> layer ∈ getitem_default deps b ->
       ~ removable deps layer) /\
  (flag = false -> flag' = true -> (edge_count deps' < edge_count deps)%nat) /\
  (flag = true -> flag' = true).
Proof.
  revert deps flag. induction images as [|base images IH]; intros deps flag.
  { simpl. intros [= <- <-]. repeat split; try done; try lia.
    - intros b layer Hin. by apply not_elem_of_nil in Hin.
    - congruence. }
  cbn [trim_pass]. destruct (truthy (deps !! base)) eqn:Htruthy.
  - destruct (_trim_layers deps base) as [[deps1 excess]|e] eqn:Hstep; [|done].
    cbn [mbind result_bind]. intros Hrest.
    destruct (_trim_layers_step _ _ _ _ Htruthy Hstep)
      as (Hexcess & Hdeps1 & Hcount & Hsame & Hsome).
    destruct (IH _ _ Hrest) as (HA & HB & HC & HD & HE & HF).
    assert (Hshrink : forall b, getitem_default deps1 b ⊆ getitem_default deps b).
    { intros b. rewrite Hdeps1, getitem_default_insert.
      destruct (decide (base = b)) as [<-|]; [|done].
      apply subseteq_difference_l. done. }
    assert (Hremoved : forall b layer, layer ∈ getitem_default deps b ->
              layer ∉ getitem_default deps1 b ->
              ~ tagged_latest layer /\ getitem_default deps1 layer = ∅).
    { intros b layer Hin. rewrite Hdeps1 at 1. rewrite getitem_default_insert.
      destruct (decide (base = b)) as [<-|]; [|done]. intros Hout.
      assert (Hex : layer ∈ excess).
      { apply dec_stable. intros Hnex. apply Hout. by apply elem_of_difference. }
      rewrite Hexcess in Hex. apply elem_of_filter in Hex as [[Hlatest Hleaf] _].
      split; [done|]. apply is_leaf_getitem_default in Hleaf.
      rewrite Hdeps1, getitem_default_insert.
      destruct (decide (base = layer)) as [<-|]; [|done].
      rewrite Hleaf in Hin. by apply not_elem_of_empty in Hin. }
    split; [|split; [|split; [|split; [|split]]]].
    + intros b. etrans; [apply HA|apply Hshrink].
    + intros b layer Hin Hout.
      destruct (decide (layer ∈ getitem_default deps1 b)) as [Hin1|Hout1].
      * by apply (HB b).
      * destruct (Hremoved b layer Hin Hout1) as [Hlatest Hleaf].
        split; [done|]. specialize (HA layer). rewrite Hleaf in HA.
        clear -HA. set_solver.
    + lia.
    + intros Hflag'. destruct (HD Hflag') as (Hflag & Heq & Hnone).
      destruct (truthy (Some excess)) eqn:Hex; [done|].
      pose proof (Hsame eq_refl) as Hsame'.
      split; [done|]. split; [congruence|].
      rewrite Hsame' in Hnone.
      intros b layer [->|Hb]%elem_of_cons Hin; [|by eapply Hnone].
      intros Hrem. cbn [truthy] in Hex. apply bool_decide_eq_false in Hex.
      apply Hex. intros Hempty.
      assert (layer ∈ excess) as Hmem.
      { rewrite Hexcess. by apply elem_of_filter. }
      rewrite Hempty in Hmem. by apply not_elem_of_empty in Hmem.
    + intros -> ->. destruct (truthy (Some excess)) eqn:Hex.
      * specialize (Hsome eq_refl).
        assert (size excess <> 0%nat).
        { rewrite size_non_empty_iff. by intros ?%leibniz_equiv. }
        lia.
      * specialize (HE eq_refl eq_refl). lia.
    + intros ->. apply HF. by destruct (truthy (Some excess)).
  - intros Hrest. destruct (IH _ _ Hrest) as (HA & HB & HC & HD & HE & HF).
    split; [done|]. split; [done|]. split; [done|]. split; [|done].
    intros Hflag'. destruct (HD Hflag') as (Hflag & Heq & Hnone).
    split; [done|]. split; [done|].
    intros b layer [->|Hb]%elem_of_cons Hin; [|by eapply Hnone].
    apply truthy_getitem_default in Htruthy. rewrite Htruthy in Hin.
    by apply not_elem_of_empty in Hin.
Qed.

Lemma elem_of_keys deps base :
  base ∈ keys deps <-> is_Some (deps !! base).
Proof.
  unfold keys. rewrite list_elem_of_fmap. split.
  - intros [[k v] [-> Hin]]. apply elem_of_map_to_list in Hin. by exists v.
  - intros [v Hv]. exists (base, v). split; [done|].
    by apply elem_of_map_to_list.
Qed.

Lemma getitem_default_keys deps base layer :
  layer ∈ getitem_default deps base -> base ∈ keys deps.
Proof.
  rewrite elem_of_keys. unfold getitem_default.
  destruct (deps !! base); [by eauto|]. simpl. intros Hin.
  by apply not_elem_of_empty in Hin.
Qed.

(** The invariants of the whole loop. *)
Lemma trim_excess_tags_inv fuel deps deps' :
  trim_excess_tags fuel deps = Some (Ok deps') ->
  (forall b, getitem_default deps' b ⊆ getitem_default deps b) /\
  (forall b layer, layer ∈ getitem_default deps b ->
     layer ∉ getitem_default deps' b ->
     ~ tagged_latest layer /\ getitem_default deps' layer = ∅) /\
  trim_pass (keys deps') deps' false = Ok (deps', false) /\
  (forall b layer, layer ∈ getitem_default deps' b -> ~ removable deps' layer).
Proof.
  revert deps. induction fuel as [|fuel IH]; intros deps; [done|].
  cbn [trim_excess_tags].
  destruct (trim_pass (keys deps) deps false) as [[deps1 flag]|e] eqn:Hpass;
    [|done].
  destruct (trim_pass_inv _ _ _ _ _ Hpass) as (HA & HB & _ & HD & _ & _).
  destruct flag.
  - intros Hloop. destruct (IH _ Hloop) as (HA' & HB' & Hfix & Hnone).
    split; [|split; [|done]].
    + intros b. etrans; [apply HA'|apply HA].
    + intros b layer Hin Hout.
      destruct (decide (layer ∈ getitem_default deps1 b)) as [Hin1|Hout1].
      * by apply (HB' b).
      * destruct (HB b layer Hin Hout1) as [Hlatest Hleaf].
        split; [done|]. specialize (HA' layer). rewrite Hleaf in HA'.
        clear -HA'. set_solver.
  - intros [= <-]. destruct (HD eq_refl) as (_ & -> & Hnone).
    split; [done|]. split; [done|]. split; [done|].
    intros b layer Hin. apply (Hnone b); [|done].
    by eapply getitem_default_keys.
Qed.

(** The loop ends within [edge_count deps + 1] passes, with the same
    outcome for any larger fuel. *)
Lemma trim_excess_tags_fuel n deps :
  (edge_count deps < n)%nat ->
  exists outcome, forall fuel,
    (edge_count deps < fuel)%nat -> trim_excess_tags fuel deps = Some outcome.
Proof.
  revert deps. induction n as [|n IH]; intros deps Hlt; [lia|].
  destruct (trim_pass (keys deps) deps false) as [[deps1 flag]|e] eqn:Hpass.
  - destruct (trim_pass_inv _ _ _ _ _ Hpass) as (_ & _ & _ & _ & HE & _).
    destruct flag.
    + specialize (HE eq_refl eq_refl).
      destruct (IH deps1) as [outcome Hout]; [lia|].
      exists outcome. intros [|fuel] Hfuel; [lia|].
      cbn [trim_excess_tags]. rewrite Hpass. apply Hout. lia.
    + exists (Ok deps1). intros [|fuel] Hfuel; [lia|].
      cbn [trim_excess_tags]. by rewrite Hpass.
  - exists (Raise e). intros [|fuel] Hfuel; [lia|].
    cbn [trim_excess_tags]. by rewrite Hpass.
Qed.

Lemma trim_pass_Raise images deps flag e :
  trim_pass images deps flag = Raise e -> e = ValueError.
Proof.
  revert deps flag. induction images as [|base images IH]; intros deps flag;
    [done|].
  cbn [trim_pass]. destruct (truthy (deps !! base)); [|apply IH].
  rewrite _trim_layers_spec. destruct (decide _); cbn.
  - apply IH.
  - congruence.
Qed.

(** A pass that reaches a base with an untagged derived reference raises. *)
Lemma trim_pass_untagged images deps flag base layer :
  base ∈ images ->
  layer ∈ getitem_default deps base ->
  ~ has_colon layer ->
  trim_pass images deps flag = Raise ValueError.
Proof.
  revert deps flag. induction images as [|b images IH]; intros deps flag Hbase Hin Hno.
  { by apply not_elem_of_nil in Hbase. }
  cbn [trim_pass]. destruct (truthy (deps !! b)) eqn:Htruthy.
  - rewrite _trim_layers_spec. destruct (decide _) as [Hall|]; [|done]. cbn.
    assert (b <> base) as Hne.
    { intros ->. by apply Hno, Hall. }
    apply IH; [|by rewrite getitem_default_insert, decide_False|done].
    apply elem_of_cons in Hbase as [->|]; done.
  - assert (b <> base) as Hne.
    { intros ->. apply truthy_getitem_default in Htruthy.
      rewrite Htruthy in Hin. by apply not_elem_of_empty in Hin. }
    apply IH; [|done..]. apply elem_of_cons in Hbase as [->|]; done.
Qed.

(** On a graph of tagged references a pass returns. *)
Lemma trim_pass_tagged images deps flag :
  (forall base layer, layer ∈ getitem_default deps base -> has_colon layer) ->
  exists deps' flag', trim_pass images deps flag = Ok (deps', flag').
Proof.
  revert deps flag. induction images as [|b images IH]; intros deps flag Hwf.
  { by eexists _, _. }
  cbn [trim_pass]. destruct (truthy (deps !! b)); [|by apply IH].
  rewrite _trim_layers_spec. rewrite decide_True by (intros layer; apply Hwf).
  cbn. apply IH. intros base layer. rewrite getitem_default_insert.
  destruct (decide (b = base)) as [<-|]; [|apply Hwf].
  intros [Hin _]%elem_of_difference. by eapply Hwf.
Qed.

Lemma trim_excess_tags_tagged fuel deps e :
  (forall base layer, layer ∈ getitem_default deps base -> has_colon layer) ->
  trim_excess_tags fuel deps <> Some (Raise e).
Proof.
  revert deps. induction fuel as [|fuel IH]; intros deps Hwf; [done|].
  cbn [trim_excess_tags].
  destruct (trim_pass_tagged (keys deps) deps false Hwf) as (deps1 & flag & Hpass).
  rewrite Hpass. destruct flag; [|done]. apply IH.
  destruct (trim_pass_inv _ _ _ _ _ Hpass) as (HA & _).
  intros base layer Hin. apply (Hwf base). by apply HA.
Qed.

(** C3: the trimmer removes exactly the removable tags.  In one call of
    [_trim_layers] on a base, each tag of its derived set is kept when it is
    tagged latest, removed when it is not tagged latest and is a leaf, kept
    when it is not tagged latest and has a non-empty derived set, and the
    returned set is the set of removable tags.  Over the whole of
    [trim_excess_tags]: a tag tagged latest is never removed; a tag that is
    not tagged latest and is a leaf is removed; a tag that is not tagged
    latest and has a non-empty derived set in the resulting graph was not
    removed. *)
Theorem trim_removes_exactly_removable
    deps base layer deps1 excess fuel deps' :
  layer ∈ getitem_default deps base ->
  _trim_layers deps base = Ok (deps1, excess) ->
  trim_excess_tags fuel deps = Some (Ok deps') ->
  ((tagged_latest layer -> layer ∈ getitem_default deps1 base) /\
   (~ tagged_latest layer -> is_leaf deps layer ->
      layer ∉ getitem_default deps1 base) /\
   (~ tagged_latest layer -> ~ is_leaf deps layer ->
      layer ∈ getitem_default deps1 base) /\
   (forall l, l ∈ excess <-> l ∈ getitem_default deps base /\ removable deps l) /\
   getitem_default deps1 base = getitem_default deps base ∖ excess) /\
  ((tagged_latest layer -> layer ∈ getitem_default deps' base) /\
   (~ tagged_latest layer -> is_leaf deps layer ->
      layer ∉ getitem_default deps' base) /\
   (~ tagged_latest layer -> ~ is_leaf deps' layer ->
      layer ∈ getitem_default deps' base)).
Proof.
  intros Hin Hstep Hrun. split.
  - rewrite _trim_layers_spec in Hstep.
    destruct (decide _) as [Hall|]; [|done]. cbn in Hstep.
    injection Hstep as <- <-.
    rewrite getitem_default_insert, decide_True by done.
    assert (Hex : forall l, l ∈ filter (removable deps) (getitem_default deps base)
              <-> l ∈ getitem_default deps base /\ removable deps l).
    { intros l. rewrite elem_of_filter. tauto. }
    split; [|split; [|split; [|split]]]; [..|done|done].
    + intros Hlatest. apply elem_of_difference. split; [done|].
      rewrite Hex. by intros [_ [Hnot _]].
    + intros Hnot Hleaf [_ Hout]%elem_of_difference. apply Hout, Hex.
      by repeat split.
    + intros Hnot Hnoleaf. apply elem_of_difference. split; [done|].
      rewrite Hex. by intros [_ [_ Hleaf]].
  - destruct (trim_excess_tags_inv _ _ _ Hrun) as (HA & HB & _ & Hnone).
    split; [|split].
    + intros Hlatest.
      destruct (decide (layer ∈ getitem_default deps' base)) as [|Hout]; [done|].
      by destruct (HB base layer Hin Hout) as [Hnot _].
    + intros Hnot Hleaf Hin'. apply (Hnone base layer Hin').
      split; [done|]. apply is_leaf_getitem_default.
      apply is_leaf_getitem_default in Hleaf.
      specialize (HA layer). rewrite Hleaf in HA. clear -HA. set_solver.
    + intros Hnot Hnoleaf.
      destruct (decide (layer ∈ getitem_default deps' base)) as [|Hout]; [done|].
      destruct (HB base layer Hin Hout) as [_ Hleaf].
      by apply is_leaf_getitem_default in Hleaf.
Qed.

Lemma trim_removes_exactly_removable_witness :
  let deps := examples.cascade_deps in
  let base := "A:1"%string in
  let layer := "B:1"%string in
  let deps1 := examples.cascade_deps in
  let excess : gset string := ∅ in
  let deps' : gmap string (gset string) :=
    {[ "A:1"%string := ∅; "B:1"%string := ∅ ]} in
  ((tagged_latest layer -> layer ∈ getitem_default deps1 base) /\
   (~ tagged_latest layer -> is_leaf deps layer ->
      layer ∉ getitem_default deps1 base) /\
   (~ tagged_latest layer -> ~ is_leaf deps layer ->
      layer ∈ getitem_default deps1 base) /\
   (forall l, l ∈ excess <-> l ∈ getitem_default deps base /\ removable deps l) /\
   getitem_default deps1 base = getitem_default deps base ∖ excess) /\
  ((tagged_latest layer -> layer ∈ getitem_default deps' base) /\
   (~ tagged_latest layer -> is_leaf deps layer ->
      layer ∉ getitem_default deps' base) /\
   (~ tagged_latest layer -> ~ is_leaf deps' layer ->
      layer ∈ getitem_default deps' base)).
Proof.
  apply (trim_removes_exactly_removable
           examples.cascade_deps "A:1" "B:1" examples.cascade_deps ∅ 3
           {[ "A:1"%string := ∅; "B:1"%string := ∅ ]}).
  - vm_compute. reflexivity.
  - vm_compute. reflexivity.
  - vm_compute. reflexivity.
Defined.

(** C4: trimming is idempotent: when [trim_excess_tags] has returned, a
    second run on its result breaks after one pass, which removes nothing,
    and leaves the graph as it is. *)
Theorem trim_excess_tags_idempotent fuel fuel' deps deps' :
  trim_excess_tags fuel deps = Some (Ok deps') ->
  trim_excess_tags (S fuel') deps' = Some (Ok deps') /\
  trim_pass (keys deps') deps' false = Ok (deps', false).
Proof.
  intros Hrun. destruct (trim_excess_tags_inv _ _ _ Hrun) as (_ & _ & Hfix & _).
  split; [|done]. cbn [trim_excess_tags]. by rewrite Hfix.
Qed.

Lemma trim_excess_tags_idempotent_witness :
  let deps' : gmap string (gset string) :=
    {[ "A:1"%string := ∅; "B:1"%string := ∅ ]} in
  trim_excess_tags 1 deps' = Some (Ok deps') /\
  trim_pass (keys deps') deps' false = Ok (deps', false).
Proof.
  apply (trim_excess_tags_idempotent 3 0 examples.cascade_deps).
  vm_compute. reflexivity.
Defined.

(** C9: the fixed-point iteration terminates on every graph: it returns or
    raises within [edge_count deps + 1] passes.  Each full pass either
    strictly decreases the number of edges, or changes nothing, and the loop
    exits on the first pass that removes nothing. *)
Theorem trim_excess_tags_terminates deps :
  (exists outcome, forall fuel,
     (edge_count deps < fuel)%nat ->
     trim_excess_tags fuel deps = Some outcome) /\
  (forall deps1 any_trimmed,
     trim_pass (keys deps) deps false = Ok (deps1, any_trimmed) ->
     if any_trimmed
     then (edge_count deps1 < edge_count deps)%nat
     else deps1 = deps /\
          forall fuel, trim_excess_tags (S fuel) deps = Some (Ok deps)).
Proof.
  split; [by apply (trim_excess_tags_fuel (S (edge_count deps))); lia|].
  intros deps1 flag Hpass.
  destruct (trim_pass_inv _ _ _ _ _ Hpass) as (_ & _ & _ & HD & HE & _).
  destruct flag; [by apply HE|].
  destruct (HD eq_refl) as (_ & -> & _). split; [done|].
  intros fuel. cbn [trim_excess_tags]. by rewrite Hpass.
Qed.

(** C10: trimming needs every derived reference to contain a colon.  When
    some derived set holds a reference without one, [trim_excess_tags] raises
    ValueError, the failed unpacking of [layer.split(':', 1)], in its first
    pass; when every derived reference contains one, it returns a graph. *)
Theorem trim_excess_tags_needs_colon deps :
  ((exists base layer,
      layer ∈ getitem_default deps base /\ ~ has_colon layer) ->
   forall fuel, trim_excess_tags (S fuel) deps = Some (Raise ValueError)) /\
  ((forall base layer, layer ∈ getitem_default deps base -> has_colon layer) ->
   exists deps', forall fuel,
     (edge_count deps < fuel)%nat ->
     trim_excess_tags fuel deps = Some (Ok deps')).
Proof.
  split.
  - intros (base & layer & Hin & Hno) fuel. cbn [trim_excess_tags].
    rewrite (trim_pass_untagged (keys deps) deps false base layer); try done.
    by eapply getitem_default_keys.
  - intros Hwf.
    destruct (trim_excess_tags_fuel (S (edge_count deps)) deps) as [outcome Hout];
      [lia|].
    destruct outcome as [deps'|e]; [by exists deps'|].
    exfalso. apply (trim_excess_tags_tagged (S (edge_count deps)) deps e Hwf).
    apply Hout. lia.
Qed.

Lemma trim_excess_tags_needs_colon_witness :
  (forall fuel,
     trim_excess_tags (S fuel) examples.untagged_deps = Some (Raise ValueError)) /\
  (exists deps', forall fuel,
     (edge_count examples.leaf_deps < fuel)%nat ->
     trim_excess_tags fuel examples.leaf_deps = Some (Ok deps')).
Proof.
  split.
  - apply (trim_excess_tags_needs_colon examples.untagged_deps).
    exists "A:1"%string, "B"%string. split.
    + vm_compute. reflexivity.
    + apply split_colon_None. reflexivity.
  - apply (trim_excess_tags_needs_colon examples.leaf_deps).
    intros base layer Hin.
    destruct (decide (base = "A:1"%string)) as [->|Hne].
    + unfold getitem_default, examples.leaf_deps in Hin.
      rewrite lookup_singleton_eq in Hin. cbn [from_option id] in Hin.
      apply elem_of_singleton in Hin as ->. apply split_colon_Some.
      vm_compute. eauto.
    + unfold getitem_default, examples.leaf_deps in Hin.
      rewrite lookup_singleton_ne in Hin by done.
      by apply not_elem_of_empty in Hin.
Defined.

End trim_facts.

(** * Properties of graph.py: building the graph *)

Section BuildTree_facts.

Import graph.

Variable strip_registry_from_image : string -> string.
Variable json_loads : string -> option Repositories.

#[local] Abbreviation strip := strip_registry_from_image.
#[local] Abbreviation add := (add strip_registry_from_image json_loads).
#[local] Abbreviation add_all := (add_all strip_registry_from_image json_loads).
#[local] Abbreviation attribute := (attribute strip_registry_from_image).
#[local] Abbreviation BuildTree_init := (BuildTree_init strip_registry_from_image json_loads).
#[local] Abbreviation view := (view json_loads).
#[local] Abbreviation claims := (claims strip_registry_from_image json_loads).

(** *** The order on start instants *)

Lemma ltb_lt (a b : string) :
  String.ltb a b = true <-> String_as_OT.lt a b.
Proof.
  unfold String.ltb. rewrite <- String_as_OT.cmp_lt. unfold String_as_OT.cmp.
  destruct (String.compare a b); split; congruence.
Qed.

Lemma ltb_asym (a b : string) :
  String.ltb a b = true -> String.ltb b a = false.
Proof.
  intros Hab. apply not_true_is_false. intros Hba.
  apply ltb_lt in Hab, Hba.
  apply (String_as_OT.lt_not_eq a a); [|done].
  by apply (String_as_OT.lt_trans a b a).
Qed.

Lemma ltb_negtrans (a b c : string) :
  String.ltb a b = false -> String.ltb b c = false -> String.ltb a c = false.
Proof.
  intros Hab Hbc. apply not_true_is_false. intros Hac.
  apply not_true_iff_false in Hab, Hbc. rewrite ltb_lt in Hab, Hbc, Hac.
  destruct (String_as_OT.compare a b) as [Hlt|Heq|Hgt]; [done| |].
  - unfold String_as_OT.eq in Heq. subst b. done.
  - destruct (String_as_OT.compare b c) as [Hlt'|Heq'|Hgt']; [done| |].
    + unfold String_as_OT.eq in Heq'. subst c. done.
    + apply (String_as_OT.lt_not_eq a a); [|done].
      apply (String_as_OT.lt_trans a c a); [done|].
      by apply (String_as_OT.lt_trans c b a).
Qed.

Lemma elem_of_insert_reverse (b x : Build) (l : list Build) :
  x ∈ insert_reverse b l <-> x = b \/ x ∈ l.
Proof.
  induction l as [|y l IH]; simpl.
  - rewrite list_elem_of_singleton, elem_of_nil. tauto.
  - destruct (String.ltb _ _).
    + rewrite !elem_of_cons, IH. tauto.
    + rewrite !elem_of_cons. tauto.
Qed.

Lemma elem_of_sort_reverse (x : Build) (l : list Build) :
  x ∈ sort_reverse l <-> x ∈ l.
Proof.
  induction l as [|y l IH]; simpl; [done|].
  rewrite elem_of_insert_reverse, IH, elem_of_cons. tauto.
Qed.

Lemma insert_reverse_sorted (b : Build) (l : list Build) :
  StronglySorted precedes l -> StronglySorted precedes (insert_reverse b l).
Proof.
  induction 1 as [|x l Hsorted IH Hall]; simpl.
  - by repeat constructor.
  - destruct (String.ltb (start_key b) (start_key x)) eqn:Hlt.
    + constructor; [done|]. apply Forall_forall. intros y Hy.
      apply elem_of_insert_reverse in Hy as [->|Hy].
      * by apply ltb_asym.
      * rewrite Forall_forall in Hall. by apply Hall.
    + constructor; [by constructor|]. constructor; [done|].
      apply Forall_forall. intros y Hy. rewrite Forall_forall in Hall.
      by apply (ltb_negtrans _ (start_key x)); [|apply Hall].
Qed.

Lemma sort_reverse_sorted (l : list Build) :
  StronglySorted precedes (sort_reverse l).
Proof.
  induction l as [|x l IH]; simpl; [constructor|].
  by apply insert_reverse_sorted.
Qed.

(** *** One record *)

(** [add] on a record with a view attributes its references; on any other
    record it leaves the tree as it is, or raises. *)
Lemma add_spec (self : BuildTree) (build : Build) :
  match view build with
  | Some (base, primary, when_) =>
      add self build = Ok (attribute self base primary when_)
  | None => add self build = Ok self \/ exists e, add self build = Raise e
  end.
Proof.
  unfold graph.view, graph.add, read_build.
  destruct (metadata build) as [m|]; cbn; [|by left].
  destruct (annotations m) as [a|]; cbn; [|by left].
  destruct (base_image_name a) as [base|]; cbn; [|by left].
  destruct (repositories a) as [text|]; cbn; [|by left].
  destruct (json_loads text) as [r|]; cbn; [|right; by eexists].
  destruct (status build) as [st|]; cbn; [|by left].
  destruct (startTimestamp st) as [ts|]; cbn; [|by left].
  destruct (primary r) as [p|]; cbn; [done|right; by eexists].
Qed.

Lemma view_start_key (build : Build) base primary when_ :
  view build = Some (base, primary, when_) ->
  has_start build = true /\ start_key build = when_.
Proof.
  unfold graph.view, has_start, start_key.
  destruct (metadata build) as [m|]; cbn; [|done].
  destruct (annotations m) as [a|]; cbn; [|done].
  destruct (base_image_name a) as [b|]; cbn; [|done].
  destruct (repositories a) as [text|]; cbn; [|done].
  destruct (json_loads text) as [r|]; cbn; [|done].
  destruct (status build) as [st|]; cbn; [|done].
  destruct (startTimestamp st) as [ts|]; cbn; [|done].
  destruct (graph.primary r) as [p|]; cbn; [|done].
  by intros [= _ _ ->].
Qed.

Lemma record_when_lookup (when_ : string) (repos : list string)
    (table : gmap string string) (r : string) :
  record_when when_ repos table !! r =
    if decide (r ∈ repos) then Some when_ else table !! r.
Proof.
  unfold record_when. revert table.
  induction repos as [|x repos IH]; intros table; cbn [foldl].
  - rewrite decide_False; [done|]. apply not_elem_of_nil.
  - rewrite IH. destruct (decide (r ∈ repos)) as [Hin|Hout].
    + rewrite decide_True; [done|]. by right.
    + rewrite lookup_insert. destruct (decide (x = r)) as [->|Hne].
      * rewrite decide_True; [done|]. by left.
      * rewrite decide_False; [done|].
        rewrite elem_of_cons. intros [->|]; done.
Qed.

(** The references [attribute] adds: the produced ones not seen before. *)
Lemma attribute_spec (self : BuildTree) base primary when_ :
  let new : gset string :=
    list_to_set (strip <$> primary) ∖ seen self in
  seen (attribute self base primary when_) = seen self ∪ new /\
  (forall b, getitem_default (deps (attribute self base primary when_)) b =
     if decide (strip base = b)
     then getitem_default (deps self) b ∪ new
     else getitem_default (deps self) b) /\
  (forall r, when (attribute self base primary when_) !! r =
     if decide (r ∈ new) then Some when_ else when self !! r).
Proof.
  intros new. unfold graph.attribute. cbn [deps seen when].
  assert (Hnew : list_to_set (strip <$> primary)
                 ∖ (seen self ∩ list_to_set (strip <$> primary)) = new).
  { unfold new. apply set_eq. intros x.
    rewrite !elem_of_difference, elem_of_intersection. tauto. }
  rewrite Hnew. split; [done|]. split.
  - intros b. rewrite getitem_default_insert.
    by destruct (decide (strip base = b)) as [<-|].
  - intros r. rewrite record_when_lookup.
    destruct (decide (r ∈ new)) as [Hin|Hout].
    + rewrite decide_True; [done|]. by apply elem_of_elements.
    + rewrite decide_False; [done|]. by rewrite elem_of_elements.
Qed.

(** *** The invariant of the construction *)

(** Every attributed reference is in the seen set, and no reference is
    attributed to two bases. *)
Lemma add_invariant (self self' : BuildTree) (build : Build) :
  add self build = Ok self' ->
  (forall b layer, layer ∈ getitem_default (deps self) b -> layer ∈ seen self) ->
  derived_disjoint (deps self) ->
  (forall b layer, layer ∈ getitem_default (deps self') b -> layer ∈ seen self') /\
  derived_disjoint (deps self').
Proof.
  intros Hadd Hseen Hdisj. pose proof (add_spec self build) as Hspec.
  destruct (view build) as [[[base primary] when_]|].
  - rewrite Hspec in Hadd. injection Hadd as <-.
    destruct (attribute_spec self base primary when_) as (Hs & Hd & _).
    split.
    + intros b layer. rewrite Hs, Hd, elem_of_union.
      destruct (decide (strip base = b)); [rewrite elem_of_union|];
        naive_solver.
    + intros b1 b2 layer. rewrite !Hd.
      destruct (decide (strip base = b1)) as [<-|Hne1];
        destruct (decide (strip base = b2)) as [<-|Hne2]; [done|..].
      * rewrite elem_of_union, elem_of_difference.
        intros [Hin1|[_ Hnew]] Hin2; [by eapply Hdisj|].
        destruct Hnew. by eapply Hseen.
      * rewrite elem_of_union, elem_of_difference.
        intros Hin1 [Hin2|[_ Hnew]]; [by eapply Hdisj|].
        destruct Hnew. by eapply Hseen.
      * apply Hdisj.
  - destruct Hspec as [Hsame|[e He]]; [|congruence].
    rewrite Hsame in Hadd. by injection Hadd as <-.
Qed.

Lemma add_all_invariant (builds : list Build) (self self' : BuildTree) :
  add_all self builds = Ok self' ->
  (forall b layer, layer ∈ getitem_default (deps self) b -> layer ∈ seen self) ->
  derived_disjoint (deps self) ->
  (forall b layer, layer ∈ getitem_default (deps self') b -> layer ∈ seen self') /\
  derived_disjoint (deps self').
Proof.
  revert self. induction builds as [|build builds IH]; intros self; simpl.
  - by intros [= <-].
  - destruct (add self build) as [self1|e] eqn:Hadd; [|done]. cbn.
    intros Hall Hseen Hdisj.
    destruct (add_invariant _ _ _ Hadd Hseen Hdisj) as [Hseen1 Hdisj1].
    by apply (IH self1).
Qed.

(** C1: after [BuildTree] is constructed, no reference appears in the
    derived set of more than one base: the derived sets are pairwise
    disjoint. *)
Theorem BuildTree_derived_disjoint (builds : list Build) (tree : BuildTree) :
  BuildTree_init builds = Ok tree ->
  derived_disjoint (deps tree) /\
  forall base1 base2 s1 s2,
    base1 <> base2 ->
    deps tree !! base1 = Some s1 -> deps tree !! base2 = Some s2 ->
    s1 ## s2.
Proof.
  unfold graph.BuildTree_init. intros Hinit.
  destruct (add_all_invariant _ _ _ Hinit) as [_ Hdisj].
  - intros b layer Hin. by apply not_elem_of_empty in Hin.
  - intros b1 b2 layer Hin. by apply not_elem_of_empty in Hin.
  - split; [done|]. intros base1 base2 s1 s2 Hne H1 H2 layer Hin1 Hin2.
    apply Hne, (Hdisj base1 base2 layer); unfold getitem_default.
    + by rewrite H1.
    + by rewrite H2.
Qed.

(** *** Records that are not skipped *)

Lemma add_all_raises (build : Build) (builds : list Build) :
  (forall self, exists e, add self build = Raise e) ->
  build ∈ builds ->
  forall self, exists e, add_all self builds = Raise e.
Proof.
  intros Hraise. induction builds as [|x builds IH]; intros Hin self.
  { by apply not_elem_of_nil in Hin. }
  simpl. apply elem_of_cons in Hin as [<-|Hin].
  - destruct (Hraise self) as [e ->]. by exists e.
  - destruct (add self x) as [self1|e]; cbn; [by apply IH|by exists e].
Qed.

(** C8, as the code has it: a repositories annotation that does not parse
    is not a missing field.  [add] catches KeyError only, so on a record
    with metadata, annotations and a base image name whose repositories text
    makes [json.loads] raise, it raises ValueError; the construction of a
    [BuildTree] over an input that holds such a record with a start instant
    fails.  A record for which the [try] block raises KeyError, a missing
    field, is skipped and the tree is left as it is. *)
Theorem add_unparseable_repositories_raises
    (self : BuildTree) (build : Build) m a base text (builds : list Build) :
  metadata build = Some m ->
  annotations m = Some a ->
  base_image_name a = Some base ->
  repositories a = Some text ->
  json_loads text = None ->
  add self build = Raise ValueError /\
  (has_start build = true -> build ∈ builds ->
   exists e, BuildTree_init builds = Raise e) /\
  (forall skipped, read_build json_loads skipped = Raise KeyError ->
     add self skipped = Ok self).
Proof.
  intros Hm Ha Hbase Htext Hloads.
  assert (Hraise : forall self0, add self0 build = Raise ValueError).
  { intros self0. unfold graph.add, read_build.
    rewrite Hm. cbn. rewrite Ha. cbn. rewrite Hbase. cbn.
    rewrite Htext. cbn. by rewrite Hloads. }
  split; [done|]. split.
  - intros Hstart Hin. unfold graph.BuildTree_init.
    apply (add_all_raises build); [by eexists|].
    apply elem_of_sort_reverse, list_elem_of_filter. done.
  - intros skipped Hskip. unfold graph.add. by rewrite Hskip.
Qed.

(** *** The most recent record wins *)

Lemma add_all_app (l1 l2 : list Build) (self : BuildTree) :
  add_all self (l1 ++ l2) = self1 ← add_all self l1; add_all self1 l2.
Proof.
  revert self. induction l1 as [|x l1 IH]; intros self; simpl; [done|].
  destruct (add self x) as [self1|e]; cbn; [apply IH|done].
Qed.

(** A record that does not claim a reference leaves it unseen. *)
Lemma add_unclaimed (self self' : BuildTree) (build : Build) (R : string) :
  add self build = Ok self' ->
  ~ claims build R -> R ∉ seen self -> R ∉ seen self'.
Proof.
  intros Hadd Hno Hunseen. pose proof (add_spec self build) as Hspec.
  destruct (view build) as [[[base primary] when_]|] eqn:Hview.
  - rewrite Hspec in Hadd. injection Hadd as <-.
    destruct (attribute_spec self base primary when_) as (Hs & _).
    rewrite Hs, elem_of_union, elem_of_difference, elem_of_list_to_set.
    intros [?|[Hin _]]; [done|]. apply Hno. by exists base, primary, when_.
  - destruct Hspec as [Hsame|[e He]]; [|congruence].
    rewrite Hsame in Hadd. by injection Hadd as <-.
Qed.

Lemma add_all_unclaimed (builds : list Build) (self self' : BuildTree) R :
  add_all self builds = Ok self' ->
  (forall build, build ∈ builds -> ~ claims build R) ->
  R ∉ seen self -> R ∉ seen self'.
Proof.
  revert self. induction builds as [|x builds IH]; intros self; simpl.
  - by intros [= <-].
  - destruct (add self x) as [self1|e] eqn:Hadd; [|done]. cbn.
    intros Hall Hno Hunseen. apply (IH self1); [done| |].
    + intros build Hin. apply Hno. by right.
    + eapply add_unclaimed; [done| |done]. apply Hno. by left.
Qed.

(** Once a reference is seen, later records change neither its base nor
    its instant. *)
Lemma add_seen (self self' : BuildTree) (build : Build) (R : string) :
  add self build = Ok self' ->
  R ∈ seen self ->
  R ∈ seen self' /\
  when self' !! R = when self !! R /\
  forall b, R ∈ getitem_default (deps self') b <->
            R ∈ getitem_default (deps self) b.
Proof.
  intros Hadd Hseen. pose proof (add_spec self build) as Hspec.
  destruct (view build) as [[[base primary] when_]|].
  - rewrite Hspec in Hadd. injection Hadd as <-.
    destruct (attribute_spec self base primary when_) as (Hs & Hd & Hw).
    split; [|split].
    + rewrite Hs. apply elem_of_union. by left.
    + rewrite Hw. rewrite decide_False; [done|].
      rewrite elem_of_difference. tauto.
    + intros b. rewrite Hd. destruct (decide (strip base = b)); [|done].
      rewrite elem_of_union, elem_of_difference. tauto.
  - destruct Hspec as [Hsame|[e He]]; [|congruence].
    rewrite Hsame in Hadd. by injection Hadd as <-.
Qed.

Lemma add_all_seen (builds : list Build) (self self' : BuildTree) R :
  add_all self builds = Ok self' ->
  R ∈ seen self ->
  R ∈ seen self' /\
  when self' !! R = when self !! R /\
  forall b, R ∈ getitem_default (deps self') b <->
            R ∈ getitem_default (deps self) b.
Proof.
  revert self. induction builds as [|x builds IH]; intros self; simpl.
  - by intros [= <-].
  - destruct (add self x) as [self1|e] eqn:Hadd; [|done]. cbn.
    intros Hall Hseen.
    destruct (add_seen _ _ _ _ Hadd Hseen) as (Hseen1 & Hw1 & Hd1).
    destruct (IH _ Hall Hseen1) as (Hseen' & Hw' & Hd').
    split; [done|]. split; [congruence|].
    intros b. by rewrite Hd', Hd1.
Qed.

(** C2: the more recent build wins attribution.  When a record of the
    input claims the reference [R] and every other record that claims it
    has an earlier start instant (two claiming records with different start
    instants are the case of the claim), then in the constructed tree [R]
    is in the derived set of the base of that record and of no other base,
    and the instant recorded for [R] is that record's start instant. *)
Theorem BuildTree_most_recent_wins
    (builds : list Build) (tree : BuildTree) (build : Build)
    (base : string) (primary : list string) (when_ R : string) :
  BuildTree_init builds = Ok tree ->
  build ∈ builds ->
  view build = Some (base, primary, when_) ->
  R ∈ strip <$> primary ->
  (forall other, other ∈ builds -> other <> build -> claims other R ->
     String.ltb (start_key other) when_ = true) ->
  R ∈ getitem_default (deps tree) (strip base) /\
  when tree !! R = Some when_ /\
  (forall base', R ∈ getitem_default (deps tree) base' -> base' = strip base).
Proof.
  intros Hinit Hin Hview HR Hlater.
  destruct (view_start_key _ _ _ _ Hview) as [Hstart Hkey].
  unfold graph.BuildTree_init in Hinit. pose proof Hinit as Hfull.
  set (sorted := sort_reverse (filter (fun b => has_start b = true) builds))
    in Hinit.
  assert (Hmem : forall b, b ∈ sorted -> b ∈ builds).
  { intros b Hb. apply elem_of_sort_reverse, list_elem_of_filter in Hb.
    by destruct Hb. }
  assert (Hbuild : build ∈ sorted).
  { by apply elem_of_sort_reverse, list_elem_of_filter. }
  pose proof (sort_reverse_sorted
                (filter (fun b => has_start b = true) builds)) as Hsorted.
  fold sorted in Hsorted.
  destruct (list_elem_of_split_l _ _ Hbuild) as (pre & post & Hsplit & Hfirst).
  rewrite Hsplit in Hinit, Hsorted, Hmem.
  assert (Hpre : forall b, b ∈ pre -> ~ claims b R).
  { intros b Hb Hclaims.
    assert (b <> build) as Hne by (by intros ->).
    assert (String.ltb (start_key b) when_ = true) as Hlt.
    { apply Hlater; [|done..]. apply Hmem, elem_of_app. by left. }
    assert (precedes b build) as Hprec.
    { apply (StronglySorted_app_1_elem_of _ pre (build :: post));
        [done..|by left]. }
    unfold precedes in Hprec. rewrite Hkey in Hprec. congruence. }
  rewrite add_all_app in Hinit.
  destruct (add_all BuildTree_empty pre) as [self1|e] eqn:Hrun1; [|done].
  cbn in Hinit.
  pose proof (add_spec self1 build) as Hspec. rewrite Hview in Hspec.
  rewrite Hspec in Hinit. cbn in Hinit.
  assert (Hunseen : R ∉ seen self1).
  { eapply add_all_unclaimed; [done..|]. apply not_elem_of_empty. }
  destruct (attribute_spec self1 base primary when_) as (Hs & Hd & Hw).
  assert (Hnew : R ∈ (list_to_set (strip <$> primary) : gset string)
                   ∖ seen self1).
  { apply elem_of_difference. split; [|done]. by apply elem_of_list_to_set. }
  assert (Hseen2 : R ∈ seen (attribute self1 base primary when_)).
  { rewrite Hs. apply elem_of_union. by right. }
  destruct (add_all_seen _ _ _ _ Hinit Hseen2) as (_ & Hwhen & Hdeps).
  assert (Hattr : R ∈ getitem_default (deps tree) (strip base)).
  { apply Hdeps. rewrite Hd, decide_True by done. apply elem_of_union.
    by right. }
  split; [done|]. split.
  - rewrite Hwhen, Hw. by rewrite decide_True.
  - intros base' Hin'.
    destruct (add_all_invariant _ _ _ Hfull) as [_ Hdisj].
    + intros b layer Hb. by apply not_elem_of_empty in Hb.
    + intros b1 b2 layer Hb. by apply not_elem_of_empty in Hb.
    + by apply (Hdisj base' (strip base) R).
Qed.

End BuildTree_facts.

(** * The sample records *)

Section BuildTree_samples.

Import graph.

Lemma BuildTree_derived_disjoint_witness :
  derived_disjoint (deps examples.chain_tree) /\
  forall base1 base2 s1 s2,
    base1 <> base2 ->
    deps examples.chain_tree !! base1 = Some s1 ->
    deps examples.chain_tree !! base2 = Some s2 ->
    s1 ## s2.
Proof.
  apply (BuildTree_derived_disjoint
           examples.strip_registry_from_image examples.json_loads
           [examples.build_A; examples.build_B] examples.chain_tree).
  vm_compute. reflexivity.
Defined.

Lemma BuildTree_most_recent_wins_witness :
  "B:1"%string ∈ getitem_default (deps examples.rebuilt_tree)
                   (examples.strip_registry_from_image "A:2") /\
  when examples.rebuilt_tree !! "B:1"%string =
    Some "2016-03-05T10:00:00Z"%string /\
  (forall base',
     "B:1"%string ∈ getitem_default (deps examples.rebuilt_tree) base' ->
     base' = examples.strip_registry_from_image "A:2").
Proof.
  apply (BuildTree_most_recent_wins
           examples.strip_registry_from_image examples.json_loads
           [examples.build_A; examples.build_A2; examples.build_B]
           examples.rebuilt_tree examples.build_A2
           "A:2" ["B:1"%string] "2016-03-05T10:00:00Z" "B:1").
  - vm_compute. reflexivity.
  - right. left.
  - vm_compute. reflexivity.
  - left.
  - intros other Hin Hne _.
    apply elem_of_cons in Hin as [->|Hin]; [reflexivity|].
    apply elem_of_cons in Hin as [->|Hin]; [done|].
    apply list_elem_of_singleton in Hin as ->. reflexivity.
Defined.

Lemma add_unparseable_repositories_raises_witness :
  add examples.strip_registry_from_image examples.json_loads
      BuildTree_empty examples.build_unparseable = Raise ValueError /\
  (has_start examples.build_unparseable = true ->
   examples.build_unparseable
     ∈ [examples.build_A; examples.build_unparseable] ->
   exists e,
     BuildTree_init examples.strip_registry_from_image examples.json_loads
       [examples.build_A; examples.build_unparseable] = Raise e) /\
  (forall skipped,
     read_build examples.json_loads skipped = Raise KeyError ->
     add examples.strip_registry_from_image examples.json_loads
         BuildTree_empty skipped = Ok BuildTree_empty).
Proof.
  apply (add_unparseable_repositories_raises
           examples.strip_registry_from_image examples.json_loads
           BuildTree_empty examples.build_unparseable
           {| annotations := Some {| base_image_name := Some "A:1"%string;
                                     repositories := Some "not json"%string |} |}
           {| base_image_name := Some "A:1"%string;
              repositories := Some "not json"%string |}
           "A:1" "not json"
           [examples.build_A; examples.build_unparseable]);
    reflexivity.
Defined.

(** C8 fails as stated: the record [build_unparseable] has every field and
    a repositories text that is not JSON; [add] raises ValueError on it
    instead of returning with the tree unchanged, and so does the
    construction over an input that holds it. *)
Lemma add_unparseable_counterexample :
  examples.json_loads "not json" = None /\
  add examples.strip_registry_from_image examples.json_loads
      BuildTree_empty examples.build_unparseable = Raise ValueError /\
  add examples.strip_registry_from_image examples.json_loads
      BuildTree_empty examples.build_unparseable <> Ok BuildTree_empty /\
  BuildTree_init examples.strip_registry_from_image examples.json_loads
    [examples.build_A; examples.build_unparseable] = Raise ValueError.
Proof.
  split; [reflexivity|]. split; [reflexivity|]. split; [discriminate|].
  vm_compute. reflexivity.
Qed.

End BuildTree_samples.

(** * Further properties of metrics.py *)

Section ThroughputModel_window.

Import metrics.

(** When the eviction loop stops without failing it has dropped a prefix:
    what is left is a non-empty suffix whose last element is the one it
    started with, and whose first element is within the window. *)
Lemma evict_Ok (window : Z) (builds left : list Z) :
  evict window builds = (left, Ok tt) ->
  left `suffix_of` builds /\
  last left = last builds /\
  exists oldest rest,
    left = oldest :: rest /\ List.last left oldest - oldest < window.
Proof.
  induction builds as [|b builds IH]; [done|].
  cbn [evict]. destruct (_ >=? _) eqn:Hge.
  - intros Hrec. destruct (IH Hrec) as (Hsuf & Hlast & oldest & rest & -> & Hlt).
    split; [by apply suffix_cons_r|]. split; [|by eauto].
    rewrite Hlast. destruct builds as [|b' builds]; [|done].
    by apply suffix_nil_inv in Hsuf.
  - intros [= <-]. split; [done|]. split; [done|].
    exists b, builds. split; [done|].
    rewrite Z.geb_leb in Hge. apply Z.leb_gt in Hge. lia.
Qed.

Lemma List_last_Some {A} (l : list A) (d y : A) :
  last l = Some y -> List.last l d = y.
Proof.
  induction l as [|x l IH]; [done|]. destruct l as [|x' l].
  - by intros [= ->].
  - rewrite last_cons_cons. intros Hlast. cbn [List.last]. by apply IH.
Qed.

Lemma StronglySorted_filter {A} (R : relation A) (P : A -> Prop)
    `{forall x, Decision (P x)} (l : list A) :
  StronglySorted R l -> StronglySorted R (filter P l).
Proof.
  induction 1 as [|x l Hsorted IH Hall]; [constructor|].
  rewrite filter_cons. destruct (decide (P x)); [|done].
  constructor; [done|]. apply Forall_forall. intros y Hy.
  apply list_elem_of_filter in Hy as [_ Hy].
  rewrite Forall_forall in Hall. by apply Hall.
Qed.

Lemma filter_all {A} (P : A -> Prop) `{forall x, Decision (P x)} (l : list A) :
  Forall P l -> filter P l = l.
Proof.
  induction 1 as [|x l Hx Hl IH]; [done|].
  by rewrite filter_cons, decide_True, IH.
Qed.

(** On instants in non-decreasing order ending in [newest], a positive
    window keeps exactly the instants less than a window before
    [newest]. *)
Lemma evict_sorted (window newest : Z) (builds : list Z) :
  0 < window ->
  StronglySorted Z.le builds ->
  last builds = Some newest ->
  evict window builds =
    (filter (fun b => newest - b < window) builds, Ok tt).
Proof.
  intros Hw Hsorted. induction Hsorted as [|b builds Hsorted IH Hall];
    [done|].
  intros Hlast. cbn [evict].
  rewrite (List_last_Some _ b newest Hlast). destruct (newest - b >=? window) eqn:Hge.
  - rewrite Z.geb_leb in Hge. apply Z.leb_le in Hge.
    rewrite filter_cons, decide_False by lia. apply IH.
    destruct builds as [|x builds]; [|by rewrite last_cons_cons in Hlast].
    injection Hlast as ->. lia.
  - rewrite Z.geb_leb in Hge. apply Z.leb_gt in Hge. f_equal.
    rewrite filter_cons, decide_True by lia. f_equal.
    symmetry. apply filter_all. eapply Forall_impl; [exact Hall|].
    intros x Hx. cbn in Hx. lia.
Qed.

(** X1: with a positive window [append] never fails, whatever the order
    of the instants: it returns the length of the window it keeps, which is
    a suffix of the old window followed by the new instant, still holds the
    new instant as its last element, and has its first element less than a
    window before it. *)
Theorem append_positive_window (self : ThroughputModel) (timestamp : Z) :
  0 < window self ->
  let self' := (append self timestamp).1 in
  (append self timestamp).2 = Ok (length (builds self')) /\
  (1 <= length (builds self'))%nat /\
  builds self' `suffix_of` (builds self ++ [timestamp]) /\
  last (builds self') = Some timestamp /\
  (forall oldest, head (builds self') = Some oldest ->
     timestamp - oldest < window self) /\
  window self' = window self.
Proof.
  intros Hw. unfold append.
  destruct (evict_positive (window self) (builds self ++ [timestamp]) Hw)
    as (left & Hev & Hne); [by destruct (builds self)|].
  rewrite Hev. cbn.
  destruct (evict_Ok _ _ _ Hev) as (Hsuf & Hlast & oldest & rest & -> & Hlt).
  rewrite last_snoc in Hlast.
  split; [done|]. split; [cbn; lia|]. split; [done|]. split; [done|].
  split; [|done]. intros o [= <-].
  rewrite (List_last_Some _ oldest timestamp Hlast) in Hlt. lia.
Qed.

Lemma append_positive_window_witness :
  let self := {| builds := [10; 20]; start_time := Some 10; window := 3600 |} in
  let self' := (append self 3615).1 in
  (append self 3615).2 = Ok (length (builds self')) /\
  (1 <= length (builds self'))%nat /\
  builds self' `suffix_of` (builds self ++ [3615]) /\
  last (builds self') = Some 3615 /\
  (forall oldest, head (builds self') = Some oldest ->
     3615 - oldest < window self) /\
  window self' = window self.
Proof.
  apply (append_positive_window
           {| builds := [10; 20]; start_time := Some 10; window := 3600 |} 3615).
  simpl. lia.
Defined.

(** X2: fed instants in non-decreasing order, with a positive window,
    [append] returns the number of stored instants, the new one included,
    that are less than a window before the new one, and keeps exactly
    those. *)
Theorem append_counts_trailing_window
    (self : ThroughputModel) (timestamp : Z) :
  0 < window self ->
  StronglySorted Z.le (builds self ++ [timestamp]) ->
  let kept :=
    filter (fun b => timestamp - b < window self) (builds self ++ [timestamp]) in
  (append self timestamp).2 = Ok (length kept) /\
  builds (append self timestamp).1 = kept /\
  StronglySorted Z.le kept.
Proof.
  intros Hw Hsorted kept. unfold append.
  rewrite (evict_sorted _ timestamp _ Hw Hsorted) by apply last_snoc.
  cbn. split; [done|]. split; [done|].
  by apply StronglySorted_filter.
Qed.

Lemma append_counts_trailing_window_witness :
  let self := {| builds := [10; 20]; start_time := Some 10; window := 3600 |} in
  let kept := filter (fun b => 3615 - b < 3600) ([10; 20] ++ [3615]) in
  (append self 3615).2 = Ok (length kept) /\
  builds (append self 3615).1 = kept /\
  StronglySorted Z.le kept.
Proof.
  apply (append_counts_trailing_window
           {| builds := [10; 20]; start_time := Some 10; window := 3600 |} 3615).
  - simpl. lia.
  - simpl. repeat (constructor; [|repeat constructor; lia]). constructor.
Defined.

(** X3: with a positive window, [start_time] is set by the first call of
    [append] and never again: after any run of calls it is the first
    instant appended. *)
Theorem start_time_is_first_instant
    (window0 first : Z) (timestamps : list Z) :
  0 < window0 ->
  start_time
    (foldl (fun self t => (append self t).1)
           (ThroughputModel_init window0) (first :: timestamps))
  = Some first.
Proof.
  intros Hw. cbn [foldl].
  assert (Hinv : forall ts self,
            window self = window0 -> builds self <> [] ->
            start_time (foldl (fun self t => (append self t).1) self ts)
            = start_time self).
  { induction ts as [|t ts IH]; intros self Hwin Hne; [done|].
    cbn [foldl].
    destruct (append_positive_window self t) as (_ & Hlen & _ & _ & _ & Hwin');
      [lia|].
    rewrite IH.
    - unfold append. destruct (evict _ _). cbn.
      by destruct (builds self).
    - congruence.
    - intros Hnil. rewrite Hnil in Hlen. cbn in Hlen. lia. }
  destruct (append_positive_window (ThroughputModel_init window0) first)
    as (_ & Hlen & _ & _ & _ & Hwin'); [done|].
  rewrite Hinv.
  - unfold append. cbn. by destruct (first - first >=? window0).
  - done.
  - intros Hnil. rewrite Hnil in Hlen. cbn in Hlen. lia.
Qed.

Lemma start_time_is_first_instant_witness :
  start_time
    (foldl (fun self t => (append self t).1)
           (ThroughputModel_init 3600) (10 :: [20; 3615]))
  = Some 10.
Proof.
  apply (start_time_is_first_instant 3600 10 [20; 3615]). lia.
Defined.

End ThroughputModel_window.

Section ConcurrentModel_sweep.

Import metrics.

Lemma insert_sorted_Permutation (x : Z) (l : list Z) :
  insert_sorted x l ≡ₚ x :: l.
Proof.
  induction l as [|y l IH]; simpl; [done|].
  destruct (x <=? y); [done|]. rewrite IH. apply Permutation_swap.
Qed.

Lemma sort_Permutation (l : list Z) : sort l ≡ₚ l.
Proof.
  induction l as [|x l IH]; simpl; [done|].
  by rewrite insert_sorted_Permutation, IH.
Qed.

Lemma insert_sorted_sorted (x : Z) (l : list Z) :
  StronglySorted Z.le l -> StronglySorted Z.le (insert_sorted x l).
Proof.
  induction 1 as [|y l Hsorted IH Hall]; simpl.
  - by repeat constructor.
  - destruct (x <=? y) eqn:Hle.
    + apply Z.leb_le in Hle. constructor; [by constructor|].
      constructor; [done|]. eapply Forall_impl; [exact Hall|].
      intros z Hz. cbn in Hz. lia.
    + apply Z.leb_gt in Hle. constructor; [done|].
      rewrite insert_sorted_Permutation. constructor; [lia|done].
Qed.

Lemma sort_sorted (l : list Z) : StronglySorted Z.le (sort l).
Proof.
  induction l as [|x l IH]; simpl; [constructor|].
  by apply insert_sorted_sorted.
Qed.

(** The inner loop splits the pending list: what it emits, in order,
    followed by what it leaves, is the list it was given. *)
Lemma retire_split (start : Z) (finish_times : list Z) :
  (retire start finish_times).1.*1 ++ (retire start finish_times).2
  = finish_times.
Proof.
  induction finish_times as [|first rest IH]; [done|].
  rewrite retire_fst_snd. destruct (start <? first); [done|].
  cbn [fst snd]. rewrite fmap_cons. cbn. by rewrite IH.
Qed.

Lemma get_nbuilds_loop_cons (start finish : Z) more (finish_times : list Z) :
  get_nbuilds_loop ((start, finish) :: more) finish_times =
    let pending' := sort ((retire start finish_times).2 ++ [finish]) in
    ((retire start finish_times).1
       ++ (start, length pending') :: (get_nbuilds_loop more pending').1,
     (get_nbuilds_loop more pending').2).
Proof.
  cbn [get_nbuilds_loop]. destruct (retire start finish_times). cbn.
  by destruct (get_nbuilds_loop more _).
Qed.

Lemma get_nbuilds_loop_app (l1 l2 : list (Z * Z)) (finish_times : list Z) :
  get_nbuilds_loop (l1 ++ l2) finish_times =
    ((get_nbuilds_loop l1 finish_times).1
       ++ (get_nbuilds_loop l2 (get_nbuilds_loop l1 finish_times).2).1,
     (get_nbuilds_loop l2 (get_nbuilds_loop l1 finish_times).2).2).
Proof.
  revert finish_times. induction l1 as [|[s f] l1 IH]; intros ft.
  - cbn. by destruct (get_nbuilds_loop l2 ft).
  - rewrite <- app_comm_cons, !get_nbuilds_loop_cons. cbn zeta.
    rewrite IH. cbn [fst snd]. by rewrite <- app_assoc.
Qed.

Lemma appended_spec (intervals : list (Z * Z)) :
  appended intervals = {| start_finish := intervals; finish_times := [] |}.
Proof.
  unfold appended.
  assert (H : forall l self,
             foldl (fun self i => ConcurrentModel_append self i.1 i.2) self l
             = {| start_finish := start_finish self ++ l;
                  finish_times := finish_times self |}).
  { induction l as [|[s f] l IH]; intros self; cbn [foldl].
    - rewrite app_nil_r. by destruct self.
    - rewrite IH. cbn. by rewrite <- app_assoc. }
  by rewrite H.
Qed.

Lemma get_nbuilds_loop_conserves (l : list (Z * Z)) (finish_times : list Z) :
  (get_nbuilds_loop l finish_times).1.*1 ++ (get_nbuilds_loop l finish_times).2
  ≡ₚ l.*1 ++ l.*2 ++ finish_times.
Proof.
  revert finish_times. induction l as [|[s f] l IH]; intros ft; [done|].
  rewrite get_nbuilds_loop_cons. cbn zeta. cbn [fst snd].
  rewrite fmap_app, fmap_cons, <- app_assoc. cbn [fst]. rewrite <- app_comm_cons.
  rewrite IH, sort_Permutation.
  rewrite <- (retire_split s ft) at 3.
  rewrite !fmap_cons. cbn [fst snd].
  set (e := (retire s ft).1.*1). set (p := (retire s ft).2).
  solve_Permutation.
Qed.

Lemma get_nbuilds_unfold (self : ConcurrentModel) :
  get_nbuilds self =
    ((get_nbuilds_loop (start_finish self) (finish_times self)).1,
     {| start_finish := start_finish self;
        finish_times :=
          (get_nbuilds_loop (start_finish self) (finish_times self)).2 |}).
Proof. unfold get_nbuilds. by destruct (get_nbuilds_loop _ _). Qed.

Lemma get_nbuilds_loop_pending (l : list (Z * Z)) (finish_times : list Z) :
  l <> [] ->
  (get_nbuilds_loop l finish_times).2 <> [] /\
  StronglySorted Z.le (get_nbuilds_loop l finish_times).2.
Proof.
  revert finish_times. induction l as [|[s f] l IH]; intros ft Hne; [done|].
  rewrite get_nbuilds_loop_cons. cbn zeta. cbn [snd].
  destruct l as [|i l]; [|by apply IH].
  cbn [get_nbuilds_loop snd]. split; [|apply sort_sorted].
  intros Hnil. pose proof (sort_Permutation ((retire s ft).2 ++ [f])) as Hp.
  rewrite Hnil in Hp. apply Permutation_nil_l in Hp.
  by destruct ((retire s ft).2).
Qed.

(** X4: the sweep loses no instant and invents none.  The instants of the
    events produced, together with the finish instants left pending, are a
    rearrangement of all starts, all finishes and the finishes pending
    before.  The intervals are kept, and after a non-empty input the
    pending list is sorted and not empty: at least the finish of the last
    interval is never emitted. *)
Theorem get_nbuilds_conserves_instants (self : ConcurrentModel) :
  (get_nbuilds self).1.*1 ++ finish_times (get_nbuilds self).2
    ≡ₚ (start_finish self).*1 ++ (start_finish self).*2 ++ finish_times self /\
  start_finish (get_nbuilds self).2 = start_finish self /\
  (start_finish self <> [] ->
   finish_times (get_nbuilds self).2 <> [] /\
   StronglySorted Z.le (finish_times (get_nbuilds self).2) /\
   (length (get_nbuilds self).1 + 1
      <= 2 * length (start_finish self) + length (finish_times self))%nat).
Proof.
  rewrite get_nbuilds_unfold. cbn [fst snd start_finish finish_times].
  pose proof (get_nbuilds_loop_conserves (start_finish self) (finish_times self))
    as Hperm.
  split; [done|]. split; [done|]. intros Hne.
  destruct (get_nbuilds_loop_pending _ (finish_times self) Hne) as [Hnil Hsorted].
  split; [done|]. split; [done|].
  apply Permutation_length in Hperm.
  rewrite !length_app, !length_fmap in Hperm.
  destruct ((get_nbuilds_loop (start_finish self) (finish_times self)).2);
    [done|]. cbn [length] in Hperm. lia.
Qed.

Lemma get_nbuilds_conserves_instants_witness :
  let self := appended [(1, 5); (2, 3); (6, 8)] in
  (get_nbuilds self).1.*1 ++ finish_times (get_nbuilds self).2
    ≡ₚ (start_finish self).*1 ++ (start_finish self).*2 ++ finish_times self /\
  start_finish (get_nbuilds self).2 = start_finish self /\
  (start_finish self <> [] ->
   finish_times (get_nbuilds self).2 <> [] /\
   StronglySorted Z.le (finish_times (get_nbuilds self).2) /\
   (length (get_nbuilds self).1 + 1
      <= 2 * length (start_finish self) + length (finish_times self))%nat).
Proof.
  apply (get_nbuilds_conserves_instants (appended [(1, 5); (2, 3); (6, 8)])).
Defined.

(** What is pending above a bound that no start exceeds: the finishes
    above it, old and new. *)
Lemma get_nbuilds_loop_above (bound : Z) (l : list (Z * Z)) (finish_times : list Z) :
  Forall (fun i => i.1 <= bound) l ->
  StronglySorted Z.le finish_times ->
  filter (fun x => bound < x) (get_nbuilds_loop l finish_times).2
    ≡ₚ filter (fun x => bound < x) (finish_times ++ l.*2).
Proof.
  intros Hall. revert finish_times.
  induction Hall as [|[s f] l Hs Hall IH]; intros ft Hsorted.
  - cbn. by rewrite app_nil_r.
  - rewrite get_nbuilds_loop_cons. cbn zeta. cbn [snd].
    rewrite IH by apply sort_sorted.
    rewrite !filter_app, sort_Permutation, filter_app.
    destruct (retire_sorted s ft Hsorted) as [-> _].
    rewrite fmap_cons. cbn [snd].
    rewrite list_filter_filter.
    rewrite (list_filter_iff (fun x => bound < x /\ s < x) (fun x => bound < x));
      [|cbn in Hs; intros x; lia].
    rewrite <- app_assoc. f_equiv.
    by rewrite <- filter_app.
Qed.

(** X5: the count reported when an interval starts.  For intervals given
    in an order in which no earlier start exceeds the last start [s], the
    last event produced is the start event of the last interval, and its
    count is one more than the number of earlier intervals that finish
    strictly after [s]; those finishes and the new one are what is left
    pending. *)
Theorem get_nbuilds_start_count (l : list (Z * Z)) (s f : Z) :
  Forall (fun i => i.1 <= s) l ->
  last (get_nbuilds (appended (l ++ [(s, f)]))).1
    = Some (s, S (length (filter (fun x => s < x) l.*2))) /\
  finish_times (get_nbuilds (appended (l ++ [(s, f)]))).2
    ≡ₚ f :: filter (fun x => s < x) l.*2.
Proof.
  intros Hall. rewrite appended_spec, get_nbuilds_unfold.
  cbn [fst snd start_finish finish_times].
  rewrite get_nbuilds_loop_app. cbn [fst snd].
  rewrite get_nbuilds_loop_cons. cbn zeta. cbn [get_nbuilds_loop fst snd].
  set (ft1 := (get_nbuilds_loop l []).2).
  assert (Hsorted : StronglySorted Z.le ft1).
  { destruct l as [|i l']; [constructor|].
    by apply get_nbuilds_loop_pending. }
  assert (Hpend : (retire s ft1).2 ≡ₚ filter (fun x => s < x) l.*2).
  { destruct (retire_sorted s ft1 Hsorted) as [-> _].
    unfold ft1. rewrite (get_nbuilds_loop_above s l []); [done|done|constructor]. }
  split.
  - rewrite app_assoc, last_snoc. do 2 f_equal.
    rewrite sort_Permutation, length_app, Hpend. cbn. lia.
  - rewrite sort_Permutation, Hpend. by rewrite Permutation_app_comm.
Qed.

Lemma get_nbuilds_start_count_witness :
  last (get_nbuilds (appended ([(1, 5); (2, 3)] ++ [(3, 8)]))).1
    = Some (3, S (length (filter (fun x => 3 < x) [(1, 5); (2, 3)].*2))) /\
  finish_times (get_nbuilds (appended ([(1, 5); (2, 3)] ++ [(3, 8)]))).2
    ≡ₚ 8 :: filter (fun x => 3 < x) [(1, 5); (2, 3)].*2.
Proof.
  apply (get_nbuilds_start_count [(1, 5); (2, 3)] 3 8).
  repeat constructor; simpl; lia.
Defined.

Lemma get_nbuilds_loop_ordered (lo : Z) (l : list (Z * Z)) (finish_times : list Z) :
  StronglySorted Z.le l.*1 ->
  Forall (fun i => i.1 <= i.2) l ->
  Forall (Z.le lo) l.*1 ->
  StronglySorted Z.le finish_times ->
  Forall (Z.le lo) finish_times ->
  StronglySorted Z.le (get_nbuilds_loop l finish_times).1.*1 /\
  Forall (Z.le lo) (get_nbuilds_loop l finish_times).1.*1.
Proof.
  revert lo finish_times.
  induction l as [|[s f] l IH]; intros lo ft Hstarts Hfin Hlo Hsorted Hft.
  { cbn. split; constructor. }
  rewrite get_nbuilds_loop_cons. cbn zeta. cbn [fst].
  rewrite fmap_app, fmap_cons. cbn [fst].
  destruct (retire_sorted s ft Hsorted) as [Hleft Hemit].
  rewrite Hemit, Hleft.
  rewrite fmap_cons in Hstarts, Hlo. cbn [fst] in Hstarts, Hlo.
  apply StronglySorted_inv in Hstarts as [Hstarts Hge].
  apply Forall_cons in Hlo as [Hlos _].
  apply Forall_cons in Hfin as [Hsf Hfin]. cbn in Hsf.
  set (pending' := sort (filter (fun x => s < x) ft ++ [f])).
  assert (Hp : Forall (Z.le s) pending').
  { unfold pending'. rewrite sort_Permutation. apply Forall_app. split.
    - apply Forall_forall. intros x [Hx _]%list_elem_of_filter. lia.
    - by constructor. }
  destruct (IH s pending' Hstarts Hfin Hge (sort_sorted _) Hp) as [Hrs Hrlo].
  split.
  - apply StronglySorted_app. split; [|split].
    + intros x1 x2 [Hx1 _]%list_elem_of_filter [->|Hx2]%elem_of_cons; [done|].
      rewrite Forall_forall in Hrlo. specialize (Hrlo _ Hx2). lia.
    + by apply (StronglySorted_filter Z.le).
    + by constructor.
  - apply Forall_app. split.
    + apply Forall_forall. intros x [_ Hx]%list_elem_of_filter.
      rewrite Forall_forall in Hft. by apply Hft.
    + constructor; [done|]. eapply Forall_impl; [exact Hrlo|].
      intros x Hx. cbn in Hx. lia.
Qed.

(** X6: for intervals appended in non-decreasing order of start, each of
    which finishes no earlier than it starts, the events come out in
    non-decreasing order of instant. *)
Theorem get_nbuilds_time_ordered (l : list (Z * Z)) :
  StronglySorted Z.le l.*1 ->
  Forall (fun i => i.1 <= i.2) l ->
  StronglySorted Z.le (get_nbuilds (appended l)).1.*1.
Proof.
  intros Hstarts Hfin. rewrite appended_spec, get_nbuilds_unfold.
  cbn [fst start_finish finish_times].
  destruct l as [|[s f] l]; [constructor|].
  apply (get_nbuilds_loop_ordered s); [done..| |constructor|constructor].
  rewrite fmap_cons in *. cbn [fst] in *.
  apply StronglySorted_inv in Hstarts as [_ Hge]. by constructor.
Qed.

Lemma get_nbuilds_time_ordered_witness :
  StronglySorted Z.le (get_nbuilds (appended [(1, 5); (2, 3); (6, 8)])).1.*1.
Proof.
  apply (get_nbuilds_time_ordered [(1, 5); (2, 3); (6, 8)]).
  - simpl. repeat (constructor; [|repeat constructor; lia]). constructor.
  - repeat constructor; simpl; lia.
Defined.

End ConcurrentModel_sweep.

(** * Further properties of graph.py: trimming *)

Section trim_result.

Import graph.

Implicit Types deps : gmap string (gset string).
Implicit Types layer base : string.

Lemma trim_pass_dom images deps flag deps' flag' :
  trim_pass images deps flag = Ok (deps', flag') -> dom deps' = dom deps.
Proof.
  revert deps flag. induction images as [|base images IH]; intros deps flag.
  { cbn. by intros [= <- <-]. }
  cbn [trim_pass]. destruct (truthy (deps !! base)) eqn:Htruthy; [|apply IH].
  rewrite _trim_layers_spec. destruct (decide _); [|done]. cbn.
  intros Hrest. rewrite (IH _ _ Hrest).
  apply dom_insert_lookup_L. destruct (truthy_true _ _ Htruthy) as [-> _].
  by eexists.
Qed.

Lemma trim_excess_tags_dom fuel deps deps' :
  trim_excess_tags fuel deps = Some (Ok deps') -> dom deps' = dom deps.
Proof.
  revert deps. induction fuel as [|fuel IH]; intros deps; [done|].
  cbn [trim_excess_tags].
  destruct (trim_pass (keys deps) deps false) as [[deps1 flag]|e] eqn:Hpass;
    [|done].
  pose proof (trim_pass_dom _ _ _ _ _ Hpass) as Hdom.
  destruct flag.
  - intros Hrun. by rewrite (IH _ Hrun).
  - by intros [= <-].
Qed.

(** A pass over a graph with no removable tag changes nothing. *)
Lemma trim_pass_nothing images deps flag :
  (forall base layer, layer ∈ getitem_default deps base ->
     has_colon layer /\ ~ removable deps layer) ->
  trim_pass images deps flag = Ok (deps, flag).
Proof.
  intros Hnone. revert flag.
  induction images as [|base images IH]; intros flag; [done|].
  cbn [trim_pass]. destruct (truthy (deps !! base)) eqn:Htruthy; [|apply IH].
  rewrite _trim_layers_spec.
  rewrite decide_True by (intros layer Hin; by apply (Hnone base)).
  cbn zeta.
  assert (Hempty : filter (removable deps) (getitem_default deps base) = ∅).
  { apply set_eq. intros layer. rewrite elem_of_filter.
    split; [|by intros ?%not_elem_of_empty].
    intros [Hrem Hin]. by destruct (Hnone base layer Hin). }
  rewrite Hempty, difference_empty_L.
  destruct (truthy_true _ _ Htruthy) as [Hbase _].
  rewrite insert_id by done. cbn. apply IH.
Qed.

(** What [trim_excess_tags] returns holds tagged references only, none
    of them removable. *)
Lemma trim_result_clean fuel deps deps' :
  trim_excess_tags fuel deps = Some (Ok deps') ->
  forall base layer, layer ∈ getitem_default deps' base ->
    has_colon layer /\ ~ removable deps' layer.
Proof.
  intros Hrun base layer Hin.
  destruct (trim_excess_tags_inv _ _ _ Hrun) as (_ & _ & Hfix & Hnone).
  split; [|by apply (Hnone base)].
  destruct (decide (has_colon layer)) as [|Hno]; [done|]. exfalso.
  rewrite (trim_pass_untagged (keys deps') deps' false base layer) in Hfix;
    [done| |done..].
  by eapply getitem_default_keys.
Qed.

(** X7: trimming only removes edges: the result has the same bases as keys,
    each with a subset of its derived set; and no removable tag is left:
    every tag that remains is tagged latest or has a non-empty derived set
    in the result. *)
Theorem trim_excess_tags_shrinks fuel deps deps' :
  trim_excess_tags fuel deps = Some (Ok deps') ->
  dom deps' = dom deps /\
  (forall base, getitem_default deps' base ⊆ getitem_default deps base) /\
  (forall base layer, layer ∈ getitem_default deps' base ->
     has_colon layer /\ (tagged_latest layer \/ ~ is_leaf deps' layer)).
Proof.
  intros Hrun. split; [by eapply trim_excess_tags_dom|].
  destruct (trim_excess_tags_inv _ _ _ Hrun) as (HA & _).
  split; [done|]. intros base layer Hin.
  destruct (trim_result_clean _ _ _ Hrun base layer Hin) as [Hcolon Hnone].
  split; [done|].
  destruct (decide (tagged_latest layer)) as [|Hnot]; [by left|]. right.
  intros Hleaf. by apply Hnone.
Qed.

Lemma trim_excess_tags_shrinks_witness :
  let deps' : gmap string (gset string) :=
    {[ "A:1"%string := ∅; "B:1"%string := ∅ ]} in
  dom deps' = dom examples.cascade_deps /\
  (forall base,
     getitem_default deps' base ⊆ getitem_default examples.cascade_deps base) /\
  (forall base layer, layer ∈ getitem_default deps' base ->
     has_colon layer /\ (tagged_latest layer \/ ~ is_leaf deps' layer)).
Proof.
  apply (trim_excess_tags_shrinks 3 examples.cascade_deps).
  vm_compute. reflexivity.
Defined.

(** X8: the graphs trimming leaves alone are exactly those in which every
    derived reference has a colon and none is removable: on them
    [trim_excess_tags] returns the graph it was given after one pass, and
    on no other graph does it return the graph unchanged. *)
Theorem trim_excess_tags_unchanged_iff fuel deps :
  trim_excess_tags (S fuel) deps = Some (Ok deps) <->
  forall base layer, layer ∈ getitem_default deps base ->
    has_colon layer /\ ~ removable deps layer.
Proof.
  split.
  - intros Hrun. by eapply trim_result_clean.
  - intros Hnone. cbn [trim_excess_tags].
    by rewrite trim_pass_nothing.
Qed.

(** Every edge a pass removes leads to a prunable tag of the graph the
    run started from. *)
Lemma trim_pass_prunable deps images cur flag cur' flag' :
  (forall b, getitem_default cur b ⊆ getitem_default deps b) ->
  (forall b l, l ∈ getitem_default deps b -> l ∉ getitem_default cur b ->
     prunable deps l) ->
  trim_pass images cur flag = Ok (cur', flag') ->
  forall b l, l ∈ getitem_default deps b -> l ∉ getitem_default cur' b ->
    prunable deps l.
Proof.
  revert cur flag. induction images as [|base images IH];
    intros cur flag Hsub Hinv.
  { cbn. by intros [= <- <-]. }
  cbn [trim_pass]. destruct (truthy (cur !! base)) eqn:Htruthy;
    [|by apply IH].
  rewrite _trim_layers_spec. destruct (decide _); [|done]. cbn.
  apply IH.
  - intros b. rewrite getitem_default_insert.
    destruct (decide (base = b)) as [<-|]; [|done].
    etrans; [apply subseteq_difference_l; reflexivity|done].
  - intros b l Hin. rewrite getitem_default_insert.
    destruct (decide (base = b)) as [<-|]; [|by apply Hinv].
    intros Hout.
    destruct (decide (l ∈ getitem_default cur base)) as [Hcur|]; [|by eapply Hinv].
    assert (removable cur l) as [Hnot Hleaf].
    { apply dec_stable. intros Hnrem. apply Hout, elem_of_difference.
      split; [done|]. rewrite elem_of_filter. tauto. }
    constructor; [done|]. intros derived Hd. apply (Hinv l); [done|].
    apply is_leaf_getitem_default in Hleaf. rewrite Hleaf.
    apply not_elem_of_empty.
Qed.

Lemma trim_excess_tags_prunable deps fuel cur deps' :
  (forall b, getitem_default cur b ⊆ getitem_default deps b) ->
  (forall b l, l ∈ getitem_default deps b -> l ∉ getitem_default cur b ->
     prunable deps l) ->
  trim_excess_tags fuel cur = Some (Ok deps') ->
  forall b l, l ∈ getitem_default deps b -> l ∉ getitem_default deps' b ->
    prunable deps l.
Proof.
  revert cur. induction fuel as [|fuel IH]; intros cur Hsub Hinv; [done|].
  cbn [trim_excess_tags].
  destruct (trim_pass (keys cur) cur false) as [[cur1 flag]|e] eqn:Hpass;
    [|done].
  pose proof (trim_pass_prunable _ _ _ _ _ _ Hsub Hinv Hpass) as Hinv1.
  destruct (trim_pass_inv _ _ _ _ _ Hpass) as (HA & _).
  destruct flag.
  - apply IH; [|done]. intros b. etrans; [apply HA|apply Hsub].
  - by intros [= <-].
Qed.

(** X9: the result of trimming, read off the input graph.  A tag stays
    under its base exactly when it is not prunable, where a tag is
    prunable when it is not tagged latest and every tag derived from it is
    prunable. *)
Theorem trim_excess_tags_result fuel deps deps' :
  trim_excess_tags fuel deps = Some (Ok deps') ->
  forall base layer,
    layer ∈ getitem_default deps' base <->
    layer ∈ getitem_default deps base /\ ~ prunable deps layer.
Proof.
  intros Hrun base layer.
  destruct (trim_excess_tags_inv _ _ _ Hrun) as (HA & _).
  assert (Hgone : forall l, prunable deps l ->
            forall b, l ∉ getitem_default deps' b).
  { induction 1 as [l Hnot Hder IH]. intros b Hin.
    destruct (trim_result_clean _ _ _ Hrun b l Hin) as [_ Hnone].
    apply Hnone. split; [done|]. apply is_leaf_getitem_default.
    apply set_eq. intros d. split; [|by intros ?%not_elem_of_empty].
    intros Hd. destruct (IH d (HA l d Hd) l Hd). }
  split.
  - intros Hin. split; [by apply HA|]. intros Hp. by apply (Hgone layer Hp base).
  - intros [Hin Hnp].
    destruct (decide (layer ∈ getitem_default deps' base)) as [|Hout]; [done|].
    destruct Hnp.
    by apply (trim_excess_tags_prunable deps fuel deps deps' ltac:(done)
                ltac:(done) Hrun base layer).
Qed.

Lemma trim_excess_tags_result_witness :
  let deps' : gmap string (gset string) :=
    {[ "A:1"%string := ∅; "B:1"%string := ∅ ]} in
  "B:1"%string ∈ getitem_default deps' "A:1" <->
  "B:1"%string ∈ getitem_default examples.cascade_deps "A:1" /\
  ~ prunable examples.cascade_deps "B:1".
Proof.
  apply (trim_excess_tags_result 3 examples.cascade_deps).
  vm_compute. reflexivity.
Defined.

End trim_result.

(** * Further properties of graph.py: building the graph *)

Section BuildTree_attribution.

Import graph.

Variable strip_registry_from_image : string -> string.
Variable json_loads : string -> option Repositories.

#[local] Abbreviation strip := strip_registry_from_image.
#[local] Abbreviation add := (add strip_registry_from_image json_loads).
#[local] Abbreviation add_all := (add_all strip_registry_from_image json_loads).
#[local] Abbreviation attribute := (attribute strip_registry_from_image).
#[local] Abbreviation BuildTree_init :=
  (BuildTree_init strip_registry_from_image json_loads).
#[local] Abbreviation view := (view json_loads).
#[local] Abbreviation claims := (claims strip_registry_from_image json_loads).
#[local] Abbreviation attributed_from :=
  (attributed_from strip_registry_from_image json_loads).

Lemma add_attributed_from (self self' : BuildTree) (build : Build)
    (processed : list Build) :
  add self build = Ok self' ->
  attributed_from self processed ->
  attributed_from self' (processed ++ [build]).
Proof.
  intros Hadd (Ha & Hb & Hc & Hd).
  pose proof (add_spec strip json_loads self build) as Hspec.
  destruct (view build) as [[[base primary] when_]|] eqn:Hview.
  - rewrite Hspec in Hadd. injection Hadd as <-.
    destruct (attribute_spec strip json_loads self base primary when_)
      as (Hs & Hdp & Hw).
    split; [|split; [|split]].
    + intros b R. rewrite Hs, Hdp, elem_of_union.
      destruct (decide (strip base = b)); [rewrite elem_of_union|];
        naive_solver.
    + intros R. rewrite Hs, elem_of_union.
      destruct (decide (R ∈ seen self)) as [Hseen|Hunseen].
      * intros _. destruct (Hb R Hseen) as (b0 & base0 & p0 & w0 & ? & ? & ? & ? & ?).
        exists b0, base0, p0, w0. rewrite elem_of_app, Hdp, Hw.
        split; [by left|]. split; [done|]. split; [done|]. split.
        -- destruct (decide (strip base = strip base0)); [|done].
           apply elem_of_union. by left.
        -- rewrite decide_False; [done|]. rewrite elem_of_difference. tauto.
      * intros [?|Hnew]; [done|].
        exists build, base, primary, when_. rewrite elem_of_app, Hdp, Hw.
        split; [right; by left|]. split; [done|]. split.
        { by apply elem_of_difference in Hnew as [?%elem_of_list_to_set _]. }
        split; [|by rewrite decide_True].
        rewrite decide_True by done. apply elem_of_union. by right.
    + intros R. rewrite Hw, Hs, elem_of_union.
      destruct (decide _) as [Hnew|]; [by right|]. intros ?. left. by apply Hc.
    + intros b0 base0 p0 w0 [Hin|Hin%list_elem_of_singleton]%elem_of_app Hv0.
      * destruct (Hd _ _ _ _ Hin Hv0) as [Hkey Hrefs]. split.
        -- unfold graph.attribute. cbn [deps].
           rewrite lookup_insert_is_Some. destruct (decide
             (strip base = strip base0)); [by left|by right].
        -- intros R HR. rewrite Hs. apply elem_of_union. left. by apply Hrefs.
      * subst b0. rewrite Hview in Hv0. injection Hv0 as <- <- <-. split.
        -- unfold graph.attribute. cbn [deps].
           rewrite lookup_insert_is_Some. by left.
        -- intros R HR. rewrite Hs, elem_of_union, elem_of_difference,
             elem_of_list_to_set.
           destruct (decide (R ∈ seen self)); [by left|by right].
  - destruct Hspec as [Hsame|[e He]]; [|congruence].
    rewrite Hsame in Hadd. injection Hadd as <-.
    split; [done|]. split; [|split; [done|]].
    + intros R HR. destruct (Hb R HR) as (b0 & base0 & p0 & w0 & ? & ?).
      exists b0, base0, p0, w0. rewrite elem_of_app. split; [by left|done].
    + intros b0 base0 p0 w0 [Hin|Hin%list_elem_of_singleton]%elem_of_app Hv0.
      * by eapply Hd.
      * subst b0. congruence.
Qed.

Lemma add_all_attributed_from (builds processed : list Build)
    (self self' : BuildTree) :
  add_all self builds = Ok self' ->
  attributed_from self processed ->
  attributed_from self' (processed ++ builds).
Proof.
  revert self processed. induction builds as [|build builds IH];
    intros self processed; simpl.
  - intros [= <-]. by rewrite app_nil_r.
  - destruct (add self build) as [self1|e] eqn:Hadd; [|done]. cbn.
    intros Hall Hinv. rewrite (cons_middle build), app_assoc.
    apply (IH self1); [done|]. by apply (add_attributed_from self).
Qed.

Lemma BuildTree_init_attributed_from (builds : list Build) (tree : BuildTree) :
  BuildTree_init builds = Ok tree ->
  attributed_from tree
    (sort_reverse (filter (fun build => has_start build = true) builds)).
Proof.
  intros Hinit. apply (add_all_attributed_from _ [] BuildTree_empty); [done|].
  split; [|split; [|split]].
  - intros b R Hin. by apply not_elem_of_empty in Hin.
  - intros R Hin. by apply not_elem_of_empty in Hin.
  - intros R [w Hw]. unfold BuildTree_empty in Hw. cbn [when] in Hw.
    by rewrite lookup_empty in Hw.
  - intros b0 base0 p0 w0 Hin. by apply not_elem_of_nil in Hin.
Qed.

Lemma elem_of_processed (builds : list Build) (build : Build) :
  build ∈ sort_reverse (filter (fun build => has_start build = true) builds)
  <-> build ∈ builds /\ has_start build = true.
Proof. rewrite elem_of_sort_reverse, list_elem_of_filter. tauto. Qed.

(** X10: what the constructed tree holds is what the records claim.  A
    reference is in the seen set exactly when some record of the input
    claims it, exactly when it is in the derived set of some base, and
    exactly when an instant is recorded for it. *)
Theorem BuildTree_references_are_claimed
    (builds : list Build) (tree : BuildTree) :
  BuildTree_init builds = Ok tree ->
  forall R,
    (R ∈ seen tree <-> exists build, build ∈ builds /\ claims build R) /\
    (R ∈ seen tree <-> exists base, R ∈ getitem_default (deps tree) base) /\
    (R ∈ seen tree <-> is_Some (when tree !! R)).
Proof.
  intros Hinit R.
  destruct (BuildTree_init_attributed_from _ _ Hinit) as (Ha & Hb & Hc & Hd).
  split; [|split].
  - split.
    + intros Hseen.
      destruct (Hb R Hseen) as (b & base & p & w & Hin & Hv & HR & _).
      apply elem_of_processed in Hin as [Hin _].
      exists b. split; [done|]. by exists base, p, w.
    + intros (b & Hin & base & p & w & Hv & HR).
      apply (Hd b base p w); [|done..].
      apply elem_of_processed. split; [done|].
      by destruct (view_start_key json_loads _ _ _ _ Hv).
  - split.
    + intros Hseen. destruct (Hb R Hseen) as (b & base & p & w & _ & _ & _ & ? & _).
      by exists (strip base).
    + intros [base Hin]. by eapply Ha.
  - split; [|apply Hc].
    intros Hseen. destruct (Hb R Hseen) as (b & base & p & w & _ & _ & _ & _ & ->).
    by eexists.
Qed.

(** X11: where an edge comes from.  When a reference is in the derived
    set of a base, some record of the input has that base, produced the
    reference, and its start instant is the instant recorded for the
    reference. *)
Theorem BuildTree_provenance
    (builds : list Build) (tree : BuildTree) (base R : string) :
  BuildTree_init builds = Ok tree ->
  R ∈ getitem_default (deps tree) base ->
  exists build base_image_name primary when_,
    build ∈ builds /\
    view build = Some (base_image_name, primary, when_) /\
    strip base_image_name = base /\
    R ∈ strip <$> primary /\
    when tree !! R = Some when_.
Proof.
  intros Hinit Hin.
  destruct (BuildTree_init_attributed_from _ _ Hinit) as (Ha & Hb & _ & _).
  destruct (Hb R (Ha _ _ Hin)) as (b & base0 & p & w & Hb0 & Hv & HR & Hin0 & Hw).
  apply elem_of_processed in Hb0 as [Hb0 _].
  exists b, base0, p, w. split; [done|]. split; [done|]. split; [|done].
  destruct (add_all_invariant strip json_loads _ _ _ Hinit) as [_ Hdisj].
  - intros b1 layer Hl. by apply not_elem_of_empty in Hl.
  - intros b1 b2 layer Hl. by apply not_elem_of_empty in Hl.
  - by apply (Hdisj (strip base0) base R).
Qed.

(** X12: a record with a view leaves the base it names as a key of the
    graph, also when every reference it produced went to more recent
    records and its derived set is empty. *)
Theorem BuildTree_bases_are_keys
    (builds : list Build) (tree : BuildTree) (build : Build)
    base primary when_ :
  BuildTree_init builds = Ok tree ->
  build ∈ builds ->
  view build = Some (base, primary, when_) ->
  is_Some (deps tree !! strip base).
Proof.
  intros Hinit Hin Hv.
  destruct (BuildTree_init_attributed_from _ _ Hinit) as (_ & _ & _ & Hd).
  apply (Hd build base primary when_); [|done].
  apply elem_of_processed. split; [done|].
  by destruct (view_start_key json_loads _ _ _ _ Hv).
Qed.

Lemma ltb_antisym (a b : string) :
  String.ltb a b = false -> String.ltb b a = false -> a = b.
Proof.
  intros Hab Hba. apply not_true_iff_false in Hab, Hba.
  rewrite ltb_lt in Hab, Hba.
  by destruct (String_as_OT.compare a b) as [?|Heq|?].
Qed.

Lemma insert_reverse_Permutation (b : Build) (l : list Build) :
  insert_reverse b l ≡ₚ b :: l.
Proof.
  induction l as [|x l IH]; simpl; [done|].
  destruct (String.ltb _ _); [|done]. rewrite IH. apply Permutation_swap.
Qed.

Lemma sort_reverse_Permutation (l : list Build) : sort_reverse l ≡ₚ l.
Proof.
  induction l as [|x l IH]; simpl; [done|].
  by rewrite insert_reverse_Permutation, IH.
Qed.

(** X13: the order of the input does not matter, nor do its records
    without a start instant, as long as the records with a start instant
    have pairwise different start instants: two inputs with the same such
    records give the same tree, or fail alike. *)
Theorem BuildTree_input_order (builds1 builds2 : list Build) :
  filter (fun build => has_start build = true) builds1
    ≡ₚ filter (fun build => has_start build = true) builds2 ->
  (forall b1 b2, b1 ∈ builds1 -> b2 ∈ builds1 ->
     has_start b1 = true -> has_start b2 = true ->
     start_key b1 = start_key b2 -> b1 = b2) ->
  BuildTree_init builds1 = BuildTree_init builds2.
Proof.
  intros Hperm Hinj. unfold graph.BuildTree_init. f_equal.
  apply (StronglySorted_unique_strong precedes);
    [|apply sort_reverse_sorted..|by rewrite !sort_reverse_Permutation].
  intros x1 x2 Hx1 Hx2 H12 H21.
  rewrite elem_of_sort_reverse in Hx1. rewrite elem_of_sort_reverse in Hx2.
  rewrite <- Hperm in Hx2.
  apply list_elem_of_filter in Hx1 as [Hs1 Hx1].
  apply list_elem_of_filter in Hx2 as [Hs2 Hx2].
  apply Hinj; [done..|]. by apply ltb_antisym.
Qed.

(** X14: building and then trimming, as [run] does.  The trimmed graph of a
    constructed tree still attributes no reference to two bases, and every
    reference left in it is a seen reference with a recorded instant. *)
Theorem BuildTree_then_trim
    (builds : list Build) (tree : BuildTree) (fuel : nat)
    (deps' : gmap string (gset string)) :
  BuildTree_init builds = Ok tree ->
  trim_excess_tags fuel (deps tree) = Some (Ok deps') ->
  derived_disjoint deps' /\
  forall base layer, layer ∈ getitem_default deps' base ->
    layer ∈ seen tree /\ is_Some (when tree !! layer) /\ has_colon layer.
Proof.
  intros Hinit Hrun.
  destruct (trim_excess_tags_inv _ _ _ Hrun) as (HA & _).
  destruct (BuildTree_init_attributed_from _ _ Hinit) as (Ha & Hb & _ & _).
  split.
  - destruct (add_all_invariant strip json_loads _ _ _ Hinit) as [_ Hdisj].
    + intros b1 layer Hl. by apply not_elem_of_empty in Hl.
    + intros b1 b2 layer Hl. by apply not_elem_of_empty in Hl.
    + intros b1 b2 layer H1 H2. apply (Hdisj b1 b2 layer); by apply HA.
  - intros base layer Hin.
    assert (layer ∈ seen tree) as Hseen by (by eapply Ha, HA).
    split; [done|]. split.
    + destruct (Hb layer Hseen) as (? & ? & ? & w & _ & _ & _ & _ & ->).
      by eexists.
    + by destruct (trim_result_clean _ _ _ Hrun base layer Hin).
Qed.

End BuildTree_attribution.

Section BuildTree_more_samples.

Import graph.

Lemma BuildTree_references_are_claimed_witness :
  ("B:1"%string ∈ seen examples.chain_tree <->
   exists build,
     build ∈ [examples.build_A; examples.build_B] /\
     claims examples.strip_registry_from_image examples.json_loads
       build "B:1") /\
  ("B:1"%string ∈ seen examples.chain_tree <->
   exists base, "B:1"%string ∈ getitem_default (deps examples.chain_tree) base) /\
  ("B:1"%string ∈ seen examples.chain_tree <->
   is_Some (when examples.chain_tree !! "B:1"%string)).
Proof.
  apply (BuildTree_references_are_claimed
           examples.strip_registry_from_image examples.json_loads
           [examples.build_A; examples.build_B] examples.chain_tree).
  vm_compute. reflexivity.
Defined.

Lemma BuildTree_provenance_witness :
  exists build base_image_name primary when_,
    build ∈ [examples.build_A; examples.build_A2; examples.build_B] /\
    view examples.json_loads build = Some (base_image_name, primary, when_) /\
    examples.strip_registry_from_image base_image_name = "A:2"%string /\
    "B:1"%string ∈ examples.strip_registry_from_image <$> primary /\
    when examples.rebuilt_tree !! "B:1"%string = Some when_.
Proof.
  apply (BuildTree_provenance
           examples.strip_registry_from_image examples.json_loads
           [examples.build_A; examples.build_A2; examples.build_B]
           examples.rebuilt_tree "A:2" "B:1").
  - vm_compute. reflexivity.
  - vm_compute. reflexivity.
Defined.

Lemma BuildTree_bases_are_keys_witness :
  is_Some (deps examples.rebuilt_tree
             !! examples.strip_registry_from_image "A:1").
Proof.
  apply (BuildTree_bases_are_keys
           examples.strip_registry_from_image examples.json_loads
           [examples.build_A; examples.build_A2; examples.build_B]
           examples.rebuilt_tree examples.build_A
           "A:1" ["B:1"%string] "2016-03-01T10:00:00Z").
  - vm_compute. reflexivity.
  - left.
  - vm_compute. reflexivity.
Defined.

Lemma BuildTree_input_order_witness :
  BuildTree_init examples.strip_registry_from_image examples.json_loads
    [examples.build_A; examples.build_B]
  = BuildTree_init examples.strip_registry_from_image examples.json_loads
      [examples.build_B; examples.build_A].
Proof.
  apply (BuildTree_input_order
           examples.strip_registry_from_image examples.json_loads
           [examples.build_A; examples.build_B]
           [examples.build_B; examples.build_A]).
  - vm_compute. apply Permutation_swap.
  - intros b1 b2 H1 H2 _ _.
    apply elem_of_cons in H1 as [->|H1%list_elem_of_singleton];
      apply elem_of_cons in H2 as [->|H2%list_elem_of_singleton];
      subst; done.
Defined.

Lemma BuildTree_then_trim_witness :
  derived_disjoint examples.chain_deps /\
  forall base layer, layer ∈ getitem_default examples.chain_deps base ->
    layer ∈ seen examples.chain_tree /\
    is_Some (when examples.chain_tree !! layer) /\ has_colon layer.
Proof.
  apply (BuildTree_then_trim
           examples.strip_registry_from_image examples.json_loads
           [examples.build_A; examples.build_B] examples.chain_tree 1).
  - vm_compute. reflexivity.
  - vm_compute. reflexivity.
Defined.

End BuildTree_more_samples.

(** * Properties of graph.py: rendering *)

Section rendering.

Import graph.

Lemma length_append (s1 s2 : string) :
  String.length (String.append s1 s2)
  = (String.length s1 + String.length s2)%nat.
Proof. induction s1 as [|c s1 IH]; simpl; [done|]. by rewrite IH. Qed.

(** Each edge adds at least the fourteen characters of the frame. *)
Lemma edge_txt_length (self : BuildTree) (datestamp : bool)
    (txt base layer : string) :
  (String.length txt + 14 <=
   String.length (edge_txt self datestamp txt base layer))%nat.
Proof.
  unfold edge_txt. rewrite !length_append. simpl. lia.
Qed.

Lemma layers_txt_length (self : BuildTree) (datestamp : bool)
    (base : string) (layers : list string) (txt : string) :
  (String.length txt + 14 * length layers <=
   String.length
     (foldl (fun txt layer => edge_txt self datestamp txt base layer)
            txt layers))%nat.
Proof.
  revert txt. induction layers as [|layer layers IH]; intros txt; simpl.
  - lia.
  - etrans; [|apply IH].
    pose proof (edge_txt_length self datestamp txt base layer). lia.
Qed.

Lemma items_txt_length (self : BuildTree) (datestamp : bool)
    (items : list (string * gset string)) (txt : string) :
  (String.length txt <=
   String.length
     (foldl (fun txt '(base, layers) =>
               foldl (fun txt layer => edge_txt self datestamp txt base layer)
                     txt (elements layers))
            txt items))%nat /\
  (forall base layers layer,
     (base, layers) ∈ items -> layer ∈ layers ->
     (String.length txt <
      String.length
        (foldl (fun txt '(base, layers) =>
                  foldl (fun txt layer => edge_txt self datestamp txt base layer)
                        txt (elements layers))
               txt items))%nat).
Proof.
  revert txt. induction items as [|[b ls] items IH]; intros txt; simpl.
  - split; [lia|]. intros base layers layer Hin. by apply not_elem_of_nil in Hin.
  - pose proof (layers_txt_length self datestamp b (elements ls) txt) as Hl.
    destruct (IH (foldl (fun txt layer => edge_txt self datestamp txt b layer)
                        txt (elements ls))) as [Hle Hlt].
    split; [lia|].
    intros base layers layer [[= -> ->]|Hin]%elem_of_cons Hlayer.
    + apply elem_of_elements in Hlayer.
      destruct (elements ls) as [|x rest]; [by apply not_elem_of_nil in Hlayer|].
      cbn [length] in Hl. lia.
    + specialize (Hlt _ _ _ Hin Hlayer). lia.
Qed.

Lemma items_txt_empty (self : BuildTree) (datestamp : bool)
    (items : list (string * gset string)) (txt : string) :
  (forall base layers, (base, layers) ∈ items -> layers = ∅) ->
  foldl (fun txt '(base, layers) =>
           foldl (fun txt layer => edge_txt self datestamp txt base layer)
                 txt (elements layers))
        txt items = txt.
Proof.
  revert txt. induction items as [|[b ls] items IH]; intros txt Hall; [done|].
  simpl. rewrite (Hall b ls) by left. rewrite elements_empty. simpl.
  apply IH. intros base layers Hin. apply (Hall base). by right.
Qed.

(** X15: the rendered text is empty exactly when the graph has no edge.  A
    base whose derived set is empty, as trimming leaves them, contributes
    nothing; with an edge the text has at least its fourteen framing
    characters, with or without datestamps. *)
Theorem as_graph_easy_txt_empty (self : BuildTree) (include_datestamp : bool) :
  as_graph_easy_txt self include_datestamp = String.EmptyString <->
  forall base, getitem_default (deps self) base = ∅.
Proof.
  unfold as_graph_easy_txt. split.
  - intros Hempty base. apply set_eq. intros layer.
    split; [|by intros ?%not_elem_of_empty]. intros Hin. exfalso.
    unfold getitem_default in Hin.
    destruct (deps self !! base) as [layers|] eqn:Hbase;
      [|by apply not_elem_of_empty in Hin].
    destruct (items_txt_length self include_datestamp
                (map_to_list (deps self)) String.EmptyString) as [_ Hlt].
    specialize (Hlt base layers layer).
    rewrite Hempty in Hlt. cbn in Hlt.
    assert (0 < 0)%nat; [|lia]. apply Hlt; [|done].
    by apply elem_of_map_to_list.
  - intros Hnone. apply items_txt_empty.
    intros base layers Hin%elem_of_map_to_list.
    specialize (Hnone base). unfold getitem_default in Hnone.
    by rewrite Hin in Hnone.
Qed.

End rendering.

Section rendering_dates.

Import graph.

Variable strip_registry_from_image : string -> string.
Variable json_loads : string -> option Repositories.

(** X16: the dates of a rendered tree.  In a constructed tree every
    derived reference has a recorded instant, so with datestamps
    [formatwhen] never takes its KeyError branch on it: it renders a
    backslash, an [n] and the first ten characters of the start instant of
    a record that produced the reference under that base. *)
Theorem formatwhen_derived
    (builds : list Build) (tree : BuildTree) (base R : string) :
  BuildTree_init strip_registry_from_image json_loads builds = Ok tree ->
  R ∈ getitem_default (deps tree) base ->
  exists build base_image_name primary when_,
    build ∈ builds /\
    view json_loads build = Some (base_image_name, primary, when_) /\
    R ∈ strip_registry_from_image <$> primary /\
    formatwhen tree true R
      = String.append "\n" (String.substring 0 10 when_) /\
    formatwhen tree false R = String.EmptyString.
Proof.
  intros Hinit Hin.
  destruct (BuildTree_init_attributed_from _ _ _ _ Hinit) as (Ha & Hb & _ & _).
  destruct (Hb R (Ha _ _ Hin)) as (b & base0 & p & w & Hb0 & Hv & HR & _ & Hw).
  apply elem_of_processed in Hb0 as [Hb0 _].
  exists b, base0, p, w. split; [done|]. split; [done|]. split; [done|].
  unfold formatwhen. by rewrite Hw.
Qed.

End rendering_dates.

Section rendering_samples.

Import graph.

Lemma formatwhen_derived_witness :
  exists build base_image_name primary when_,
    build ∈ [examples.build_A; examples.build_B] /\
    view examples.json_loads build = Some (base_image_name, primary, when_) /\
    "B:1"%string ∈ examples.strip_registry_from_image <$> primary /\
    formatwhen examples.chain_tree true "B:1"
      = String.append "\n" (String.substring 0 10 when_) /\
    formatwhen examples.chain_tree false "B:1" = String.EmptyString.
Proof.
  apply (formatwhen_derived
           examples.strip_registry_from_image examples.json_loads
           [examples.build_A; examples.build_B] examples.chain_tree "A:1" "B:1").
  - vm_compute. reflexivity.
  - vm_compute. reflexivity.
Defined.

End rendering_samples.
